(** * nodepy, stability_function.py: stability regions and approximants of exp

    A shallow embedding of [stability_function.py].  Python integers are [Z].

    The two constructors [pade_exp] and [taylor] are embedded twice.  Module
    [B64] has them over Rocq's primitive floats, the binary64 numbers of the
    program, with every rounding, underflow and overflow; what is said of
    the returned coefficients, degrees and signs is proved there.  Modules
    [Num], [Poly] and [Approx] have them over the rationals [Q], without
    rounding; this reading serves for the control flow (which divisions
    raise, which loops run), for identities that hold digit for digit in
    either reading, and for the renderer, whose inputs are polynomials with
    given coefficients and whose tests compare such coefficients.  A complex
    number is a pair of rationals.  A Python float division raises
    [ZeroDivisionError] on a zero divisor and is modelled with [option]; a
    numpy division by zero yields an infinite or undefined cell and is
    modelled with [option] too, [None] standing for that cell. *)

From Stdlib Require Import String ZArith QArith Qabs Qminmax Qpower Qfield List Lia Lqa Bool Factorial Setoid Morphisms.
From Stdlib Require Import Floats Uint63.
Import ListNotations.

Set Warnings "-inexact-float".

Local Open Scope Q_scope.

(** ** Numbers *)

Module Num.

(** A Python integer used in float arithmetic. *)
Definition float_of_int (n : Z) : Q := inject_Z n.

(** Python float division: [ZeroDivisionError] on a zero divisor. *)
Definition py_div (a b : Q) : option Q :=
  if Qeq_bool b 0 then None else Some (a / b).

Definition Qlt_bool (a b : Q) : bool := negb (Qle_bool b a).

(** [scipy.factorial] on a non-negative integer. *)
Definition factorial (n : nat) : Q := inject_Z (Z.of_nat (fact n)).

(** [range(a, b)] of Python. *)
Definition range (a b : Z) : list Z :=
  map (fun i => (a + Z.of_nat i)%Z) (seq 0 (Z.to_nat (b - a))).

End Num.

(** ** numpy's [poly1d], as far as this module uses it *)

Module Poly.

(** [trim_zeros(c, trim='f')]: drop the leading zero coefficients. *)
Fixpoint trim_zeros_f (c : list Q) : list Q :=
  match c with
  | [] => []
  | x :: t => if Qeq_bool x 0 then trim_zeros_f t else c
  end.

(** A [poly1d] object: its coefficients, highest degree first, and its
    order. *)
Record poly1d : Type := mk_poly1d {
  coeffs : list Q;
  order : Z
}.

(** [poly1d(c)]: the constructor trims leading zeros, turns an empty
    coefficient list into [[0]] and sets [order = len(coeffs) - 1]. *)
Definition make (c : list Q) : poly1d :=
  let c' := match trim_zeros_f c with [] => [0] | l => l end in
  mk_poly1d c' (Z.of_nat (length c') - 1).

(** [len(p)]: numpy's [poly1d.__len__] returns the order. *)
Definition len (p : poly1d) : Z := order p.

(** [p[val]]: the coefficient of degree [val], 0 outside [0..order]. *)
Definition getitem (p : poly1d) (val : Z) : Q :=
  if (val >? order p)%Z then 0
  else if (val <? 0)%Z then 0
  else nth (Z.to_nat (order p - val)) (coeffs p) 0.

(** [p(x)] at a real point: [polyval], Horner's scheme
    [y = 0; for pv in coeffs: y = y*x + pv]. *)
Definition polyval (p : poly1d) (x : Q) : Q :=
  fold_left (fun y pv => y * x + pv) (coeffs p) 0.

End Poly.

(** ** The approximant constructors *)

Module Approx.
Import Num Poly.

(** One pass of the numerator loop of [pade_exp]:
    [newcoeff = Pcoeffs[0]*(k-n+1.)/(j+k-n+1.)/n; Pcoeffs = [newcoeff]+Pcoeffs]. *)
Definition P_step (k j : Z) (acc : option (list Q)) (n : Z) : option (list Q) :=
  match acc with
  | None => None
  | Some Pcoeffs =>
      match py_div (hd 0 Pcoeffs * (float_of_int (k - n) + 1))
                   (float_of_int (j + k - n) + 1) with
      | None => None
      | Some t =>
          match py_div t (float_of_int n) with
          | None => None
          | Some newcoeff => Some (newcoeff :: Pcoeffs)
          end
      end
  end.

(** One pass of the denominator loop:
    [newcoeff = -1.*Qcoeffs[0]*(j-n+1.)/(j+k-n+1.)/n]. *)
Definition Q_step (k j : Z) (acc : option (list Q)) (n : Z) : option (list Q) :=
  match acc with
  | None => None
  | Some Qcoeffs =>
      match py_div ((-1) * hd 0 Qcoeffs * (float_of_int (j - n) + 1))
                   (float_of_int (j + k - n) + 1) with
      | None => None
      | Some t =>
          match py_div t (float_of_int n) with
          | None => None
          | Some newcoeff => Some (newcoeff :: Qcoeffs)
          end
      end
  end.

Definition Pcoeffs_loop (k j : Z) : option (list Q) :=
  fold_left (P_step k j) (range 1 (k + 1)) (Some [1]).

Definition Qcoeffs_loop (k j : Z) : option (list Q) :=
  fold_left (Q_step k j) (range 1 (j + 1)) (Some [1]).

(** [pade_exp(k, j)]; [None] when a division raises. *)
Definition pade_exp (k j : Z) : option (poly1d * poly1d) :=
  match Pcoeffs_loop k j with
  | None => None
  | Some Pcoeffs =>
      let P := make Pcoeffs in
      match Qcoeffs_loop k j with
      | None => None
      | Some Qcoeffs => Some (P, make Qcoeffs)
      end
  end.

(** [taylor(p)]: [coeffs = 1./factorial(np.arange(p+1))], then
    [np.poly1d(coeffs[::-1])]. *)
Definition arange (n : Z) : list nat := seq 0 (Z.to_nat n).

Definition taylor (p : Z) : poly1d :=
  let coeffs := map (fun i => 1 / factorial i) (arange (p + 1)) in
  make (rev coeffs).

End Approx.

(** ** Complex points and magnitudes *)

Module Cplx.
Import Num Poly.

(** A complex number [re + im*1j] with rational parts. *)
Definition C : Type := (Q * Q)%type.

Definition Cadd (a b : C) : C := (fst a + fst b, snd a + snd b).

Definition Cmul (a b : C) : C :=
  (fst a * fst b - snd a * snd b, fst a * snd b + snd a * fst b).

(** A complex number times a real factor, as in [Z*scalefac]. *)
Definition Cscale (z : C) (s : Q) : C := (fst z * s, snd z * s).

Definition Cis_zero (z : C) : bool := Qeq_bool (fst z) 0 && Qeq_bool (snd z) 0.

(** Equality of complex numbers, part by part. *)
Definition Ceq (a b : C) : Prop := fst a == fst b /\ snd a == snd b.

(** numpy's complex division; on a zero divisor the cell is infinite or
    undefined ([None]) and nothing is raised. *)
Definition Cdiv (a b : C) : option C :=
  if Cis_zero b then None
  else
    let d := fst b * fst b + snd b * snd b in
    Some ((fst a * fst b + snd a * snd b) / d,
          (snd a * fst b - fst a * snd b) / d).

(** [p(z)] at a complex point: the same Horner scheme, the coefficients
    being real. *)
Definition polyvalC (p : poly1d) (z : C) : C :=
  fold_left (fun y pv => Cadd (Cmul y z) (pv, 0)) (coeffs p) (0, 0).

(** The value of [np.abs]: the square root of a non-negative rational, kept
    as the rational under the root, or the infinite or undefined value that
    a division by zero left in the cell. *)
Inductive magnitude : Type :=
| Sqrt (s : Q)
| InfOrNan.

Definition Cabs (w : option C) : magnitude :=
  match w with
  | Some (a, b) => Sqrt (a * a + b * b)
  | None => InfOrNan
  end.

(** [m <= b] for a magnitude [m] and a real [b]; an infinite or undefined
    magnitude fails every such test. *)
Definition mag_le (m : magnitude) (b : Q) : bool :=
  match m with
  | Sqrt s => Qle_bool 0 b && Qle_bool s (b * b)
  | InfOrNan => false
  end.

(** The conjugate, the opposite and the squared modulus. *)
Definition Cconj (z : C) : C := (fst z, - snd z).
Definition Cneg (z : C) : C := (- fst z, - snd z).
Definition Cnorm2 (z : C) : Q := fst z * fst z + snd z * snd z.

End Cplx.

(** ** The stability-region renderer *)

Module Render.
Import Num Poly Cplx.

(** A bounds tuple [(xmin, xmax, ymin, ymax)]. *)
Definition bounds : Type := (Q * Q * Q * Q)%type.

Definition bounds_list (b : bounds) : list Q :=
  let '(b0, b1, b2, b3) := b in [b0; b1; b2; b3].

Definition bounds_get (b : bounds) (i : nat) : Q := nth i (bounds_list b) 0.

(** What the function prints and asks of matplotlib and of
    [utils.find_plot_bounds], in order.  The roots [p.r] of a polynomial are
    not computed here: the marker plot names the polynomial they belong
    to. *)
Inductive event : Type :=
| Print (msg : string)
| FindPlotBounds (guess : bounds)
| Figure (fignum : option Z)
| Hold (b : bool)
| Contourf (X Y : list (list Q)) (R : list (list magnitude))
           (levels : list Q) (colors : string) (alpha : Q)
| Contour (X Y : list (list Q)) (R : list (list magnitude))
          (levels : list Q) (colors : string) (alpha : Q) (linewidths : Z)
| PlotRootsOf (p : poly1d) (fmt : string)
| PlotLine (xs ys : list Q) (fmt : string) (linewidth : Z)
| Axis (arg : string).

(** [np.linspace(a, b, N)] *)
Definition linspace (a b : Q) (N : nat) : list Q :=
  match N with
  | O => []
  | S O => [a]
  | _ => map (fun i => inject_Z (Z.of_nat i) * ((b - a) / inject_Z (Z.of_nat (N - 1))) + a)
             (seq 0 N)
  end.

(** [np.tile(x,(N,1))] and [np.tile(y[:,np.newaxis],(1,N))] *)
Definition tile_rows (x : list Q) (N : nat) : list (list Q) := repeat x N.
Definition tile_cols (y : list Q) (N : nat) : list (list Q) :=
  map (fun yi => repeat yi N) y.

(** [Z = X + Y*1j], elementwise *)
Definition grid (X Y : list (list Q)) : list (list C) :=
  map (fun xy => combine (fst xy) (snd xy)) (combine X Y).

(** One cell of [np.abs(p(Z*scalefac)/q(Z*scalefac))]. *)
Definition magnitude_cell (p q : poly1d) (scalefac : Q) (z : C) : magnitude :=
  Cabs (Cdiv (polyvalC p (Cscale z scalefac)) (polyvalC q (Cscale z scalefac))).

(** [R = np.abs(p(Z*scalefac)/q(Z*scalefac))] over the whole grid. *)
Definition magnitude_field (p q : poly1d) (scalefac : Q) (Z : list (list C))
  : list (list magnitude) :=
  map (map (magnitude_cell p q scalefac)) Z.

(** [stable = lambda z : np.abs(p(z)/q(z))<=1.0] *)
Definition stable (p q : poly1d) (z : C) : bool :=
  mag_le (Cabs (Cdiv (polyvalC p z) (polyvalC q z))) 1.

(** The test of the first branch:
    [(m < n) or ((m == n) and (abs(p[m])<abs(q[n])))]. *)
Definition unbounded_test (p q : poly1d) : bool :=
  let m := order p in
  let n := order q in
  (m <? n)%Z || ((m =? n)%Z && Qlt_bool (Qabs (getitem p m)) (Qabs (getitem q n))).

(** [np.min(np.abs(np.array(bounds)))] *)
Definition min_abs (b : bounds) : Q :=
  let '(b0, b1, b2, b3) := b in
  Qmin (Qmin (Qmin (Qabs b0) (Qabs b1)) (Qabs b2)) (Qabs b3).

(** The literal [1.e-14]: the binary64 number nearest to [10^-14], which is
    [6338253001141147 * 2^-99], a little below [10^-14]. *)
Definition tiny : Q := 6338253001141147 # (2 ^ 99).

Definition msg_unbounded : string := "The stability region is unbounded".
Definition msg_no_region : string :=
  "No stable region found; is this method zero-stable?".
Definition msg_may_be_unbounded : string := "The stability region may be unbounded".

Section WithBoundFinder.

(** [utils.find_plot_bounds(stable, guess=...)], which this file imports. *)
Variable find_plot_bounds : (C -> bool) -> bounds -> bounds.

(** The first part of [plot_stability_region]: the bounds it settles on and
    what it printed and called on the way. *)
Definition select_bounds (p q : poly1d) : bounds * list event :=
  let m := order p in
  let n := order q in
  let '(bnds, log) :=
    if unbounded_test p q then
      ((float_of_int (-10 * m), float_of_int m,
        float_of_int (-5 * m), float_of_int (5 * m)),
       [Print msg_unbounded])
    else
      let guess := (-(10), 1, -(5), 5) in
      let bnds := find_plot_bounds (stable p q) guess in
      (bnds,
       FindPlotBounds guess ::
       (if Qlt_bool (min_abs bnds) tiny then [Print msg_no_region] else []))
  in
  (bnds,
   log ++
   (if (m =? n)%Z && Qeq_bool (Qabs (getitem p m)) (Qabs (getitem q n))
    then [Print msg_may_be_unbounded] else [])).

(** [plot_stability_region(p,q,N,color,filled,plotroots,alpha,scalefac,fignum)]
    for a [p] whose coefficients are numbers already. *)
Definition plot_stability_region (p q : poly1d) (N : nat) (color : string)
    (filled plotroots : bool) (alpha scalefac : Q) (fignum : option Z)
  : list event :=
  let '(bnds, log) := select_bounds p q in
  let x := linspace (bounds_get bnds 0) (bounds_get bnds 1) N in
  let y := linspace (bounds_get bnds 2) (bounds_get bnds 3) N in
  let X := tile_rows x N in
  let Y := tile_cols y N in
  let Z := grid X Y in
  let R := magnitude_field p q scalefac Z in
  log ++
  [Figure fignum; Hold true] ++
  [if filled then Contourf X Y R [0; 1] color alpha
   else Contour X Y R [0; 1] color alpha 3] ++
  (if plotroots then [PlotRootsOf p "ok"] else []) ++
  (if (len q >? 1)%Z then [PlotRootsOf q "xk"] else []) ++
  [PlotLine [0; 0] [bounds_get bnds 2; bounds_get bnds 3] "--k" 2;
   PlotLine [bounds_get bnds 0; bounds_get bnds 1] [0; 0] "--k" 2;
   Axis "Image"; Hold false].

End WithBoundFinder.

(** The condition under which the region is taken to be unbounded, in the
    words of the description: [m < n], or [m = n] and the leading
    coefficient of [p] smaller in magnitude than that of [q]. *)
Definition unbounded_condition (p q : poly1d) : Prop :=
  (order p < order q)%Z \/
  (order p = order q /\
   Qabs (getitem p (order p)) < Qabs (getitem q (order q))).

(** The fixed rectangle [(-10m, m, -5m, 5m)]. *)
Definition fixed_rectangle (m : Z) : bounds :=
  (float_of_int (-10 * m), float_of_int m,
   float_of_int (-5 * m), float_of_int (5 * m)).

(** The guess handed to the bound search. *)
Definition initial_guess : bounds := (-(10), 1, -(5), 5).

(** Events that are a notice or a bound search, as opposed to drawing. *)
Definition is_drawing (e : event) : bool :=
  match e with
  | Print _ | FindPlotBounds _ => false
  | _ => true
  end.

End Render.

(** ** Concrete inputs *)

Module Inputs.
Import Num Poly Cplx Render.

(** [p(z) = z + 1], the stability polynomial of the forward Euler method. *)
Definition forward_euler : poly1d := make [1; 1].

(** The constant polynomial 1. *)
Definition one : poly1d := make [1].

(** [q(z) = 1 - z], stored as [[-1, 1]]. *)
Definition one_minus_z : poly1d := make [-(1); 1].

(** A bound search that returns the rectangle [(-2, 0, -1, 1)], which
    encloses the unit disk around -1. *)
Definition search_returning_disk : (C -> bool) -> bounds -> bounds :=
  fun _ _ => (-(2), 0, -(1), 1).

End Inputs.

(** ** The approximant constructors in binary64

    The same code with the numbers the program really has: Rocq's primitive
    floats are the binary64 numbers of IEEE 754 with round-to-nearest-even,
    as Python's and numpy's floats.  Every rounding, underflow and overflow
    of the program is in this model. *)

Module B64.
Import Num.

Local Open Scope float_scope.

(** A Python integer used in float arithmetic; the conversion is exact
    below [2^53] in magnitude, which is all the properties below use. *)
Definition float_of_int (n : Z) : float :=
  if (n <? 0)%Z then - of_uint63 (Uint63.of_Z (- n))
  else of_uint63 (Uint63.of_Z n).

(** Python float division: [ZeroDivisionError] on a divisor equal to zero
    (of either sign). *)
Definition py_div (a b : float) : option float :=
  if b =? 0 then None else Some (a / b).

(** [trim_zeros(c, trim='f')] *)
Fixpoint trim_zeros_f (c : list float) : list float :=
  match c with
  | [] => []
  | x :: t => if x =? 0 then trim_zeros_f t else c
  end.

Record poly1d : Type := mk_poly1d {
  coeffs : list float;
  order : Z
}.

(** [poly1d(c)] *)
Definition make (c : list float) : poly1d :=
  let c' := match trim_zeros_f c with [] => [0] | l => l end in
  mk_poly1d c' (Z.sub (Z.of_nat (List.length c')) 1).

(** [p[val]] *)
Definition getitem (p : poly1d) (val : Z) : float :=
  if (val >? order p)%Z then 0
  else if (val <? 0)%Z then 0
  else nth (Z.to_nat (order p - val)) (coeffs p) 0.

(** [p(x)]: Horner's scheme, every operation rounded. *)
Definition polyval (p : poly1d) (x : float) : float :=
  fold_left (fun y pv => y * x + pv) (coeffs p) 0.

(** [newcoeff = Pcoeffs[0]*(k-n+1.)/(j+k-n+1.)/n] *)
Definition P_step (k j : Z) (acc : option (list float)) (n : Z)
  : option (list float) :=
  match acc with
  | None => None
  | Some Pcoeffs =>
      match py_div (hd 0 Pcoeffs * (float_of_int (k - n) + 1))
                   (float_of_int (j + k - n) + 1) with
      | None => None
      | Some t =>
          match py_div t (float_of_int n) with
          | None => None
          | Some newcoeff => Some (newcoeff :: Pcoeffs)
          end
      end
  end.

(** [newcoeff = -1.*Qcoeffs[0]*(j-n+1.)/(j+k-n+1.)/n] *)
Definition Q_step (k j : Z) (acc : option (list float)) (n : Z)
  : option (list float) :=
  match acc with
  | None => None
  | Some Qcoeffs =>
      match py_div ((-1) * hd 0 Qcoeffs * (float_of_int (j - n) + 1))
                   (float_of_int (j + k - n) + 1) with
      | None => None
      | Some t =>
          match py_div t (float_of_int n) with
          | None => None
          | Some newcoeff => Some (newcoeff :: Qcoeffs)
          end
      end
  end.

Definition Pcoeffs_loop (k j : Z) : option (list float) :=
  fold_left (P_step k j) (range 1 (k + 1)) (Some [1]).

Definition Qcoeffs_loop (k j : Z) : option (list float) :=
  fold_left (Q_step k j) (range 1 (j + 1)) (Some [1]).

(** [pade_exp(k, j)] *)
Definition pade_exp (k j : Z) : option (poly1d * poly1d) :=
  match Pcoeffs_loop k j with
  | None => None
  | Some Pcoeffs =>
      let P := make Pcoeffs in
      match Qcoeffs_loop k j with
      | None => None
      | Some Qcoeffs => Some (P, make Qcoeffs)
      end
  end.

(** [taylor(p)].  [scipy.factorial] is not part of this module: on an array
    it is the float [gamma(n+1)], and it is taken as the parameter
    [factorial]; the division [1./factorial(...)] is numpy's and raises
    nothing. *)
Definition taylor (factorial : nat -> float) (p : Z) : poly1d :=
  let coeffs := map (fun i => 1 / factorial i) (seq 0 (Z.to_nat (p + 1))) in
  make (rev coeffs).

(** [n!] by float products.  Up to [22!] every product is exact, [n!] being
    a binary64 number. *)
Fixpoint product_factorial (n : nat) : float :=
  match n with
  | O => 1
  | S m => float_of_int (Z.of_nat n) * product_factorial m
  end.

(** What is known of [scipy.factorial] where [n!] is a binary64 number. *)
Definition exact_up_to_22 (factorial : nat -> float) : Prop :=
  forall n : nat, (n <= 22)%nat -> factorial n = product_factorial n.

(** The rational number a float stands for; [None] for an infinity or a
    NaN. *)
Definition to_Q (x : float) : option Q :=
  match Prim2SF x with
  | S754_zero _ => Some 0%Q
  | S754_finite s m e =>
      Some (inject_Z (if s then Z.neg m else Z.pos m) * 2 ^ e)%Q
  | _ => None
  end.

Definition value (x : float) : Q :=
  match to_Q x with Some q => q | None => 0%Q end.

(** A float that is neither zero, nor an infinity, nor a NaN. *)
Definition finite_nonzero (x : float) : bool :=
  match Prim2SF x with
  | S754_finite _ _ _ => true
  | _ => false
  end.

(** A float that is neither an infinity nor a NaN. *)
Definition finite (x : float) : bool :=
  match Prim2SF x with
  | S754_zero _ | S754_finite _ _ _ => true
  | _ => false
  end.

(** The polynomial over the rationals with the same coefficients. *)
Definition exact_poly (p : poly1d) : Poly.poly1d :=
  Poly.mk_poly1d (map value (coeffs p)) (order p).

(** The two tests of the renderer on the leading coefficients:
    [(m < n) or ((m == n) and (abs(p[m])<abs(q[n])))] and
    [(m == n) and (abs(p[m])==abs(q[n]))]. *)
Definition unbounded_test (p q : poly1d) : bool :=
  let m := order p in
  let n := order q in
  (m <? n)%Z || ((m =? n)%Z && (abs (getitem p m) <? abs (getitem q n))).

Definition equal_magnitude_test (p q : poly1d) : bool :=
  let m := order p in
  let n := order q in
  (m =? n)%Z && (abs (getitem p m) =? abs (getitem q n)).

(** The coefficients of degree 0, 1, 2, ... have the signs +, -, +, ... *)
Fixpoint alternating (positive : bool) (low_first : list float) : bool :=
  match low_first with
  | [] => true
  | c :: t =>
      (if positive then 0 <? c else c <? 0) && alternating (negb positive) t
  end.

(** The same two tests on the values of the leading coefficients, as the
    renderer makes them on polynomials whose coefficients are given. *)
Definition leading_lt (p q : poly1d) : bool :=
  let m := order p in
  let n := order q in
  if (m <? n)%Z then true
  else if (m =? n)%Z
       then Qlt_bool (Qabs (value (getitem p m))) (Qabs (value (getitem q n)))
       else false.

Definition leading_eq (p q : poly1d) : bool :=
  let m := order p in
  let n := order q in
  if (m =? n)%Z
  then Qeq_bool (Qabs (value (getitem p m))) (Qabs (value (getitem q n)))
  else false.

(** What is checked of one pair of degrees. *)
Definition pade_facts (k j : Z) : bool :=
  match pade_exp k j with
  | None => false
  | Some (P, Qd) =>
      (polyval P 0 =? 1) && (polyval Qd 0 =? 1)
      && (order P =? k)%Z && (order Qd =? j)%Z
      && forallb (fun c => 0 <? c) (coeffs P)
      && alternating true (rev (coeffs Qd))
      && Bool.eqb (unbounded_test P Qd) (k <? j)%Z
      && Bool.eqb (equal_magnitude_test P Qd) (k =? j)%Z
      && Bool.eqb (leading_lt P Qd) (k <? j)%Z
      && Bool.eqb (leading_eq P Qd) (k =? j)%Z
  end.

(** [f k j] for all [0 <= k], [0 <= j] with [k + j <= B]. *)
Definition triangle (B : Z) (f : Z -> Z -> bool) : bool :=
  forallb (fun k => forallb (f k) (range 0 (B + 1 - k))) (range 0 (B + 1)).

End B64.

(** ** Closed descriptions used in the proofs *)

Module Closed.
Import Num Poly.

(** The coefficient list, highest degree first, of the polynomial whose
    degree-[i] coefficient is [f i], for [i] up to [n]. *)
Definition descending (f : nat -> Q) (n : nat) : list Q :=
  map f (rev (seq 0 (S n))).

(** The numerator coefficient of degree [n], by the recurrence of the loop. *)
Fixpoint pcoef (k j : Z) (n : nat) : Q :=
  match n with
  | O => 1
  | S n' =>
      pcoef k j n' * (float_of_int (k - Z.of_nat n) + 1)
        / (float_of_int (j + k - Z.of_nat n) + 1) / float_of_int (Z.of_nat n)
  end.

(** The denominator coefficient of degree [n], by the recurrence of the
    loop. *)
Fixpoint qcoef (k j : Z) (n : nat) : Q :=
  match n with
  | O => 1
  | S n' =>
      (-1) * qcoef k j n' * (float_of_int (j - Z.of_nat n) + 1)
        / (float_of_int (j + k - Z.of_nat n) + 1) / float_of_int (Z.of_nat n)
  end.

(** Binomial coefficients, by Pascal's rule. *)
Fixpoint binom (n m : nat) : Z :=
  match n, m with
  | _, O => 1
  | O, S _ => 0
  | S n', S m' => binom n' m' + binom n' m
  end.

(** The sign [(-1)^n] as an integer. *)
Definition sgn (n : nat) : Z := if Nat.even n then 1 else -1.

(** [zsum f n] is the sum of [f i] for [i < n]; [qsum] is the same over
    the rationals. *)
Fixpoint zsum (f : nat -> Z) (n : nat) : Z :=
  match n with
  | O => 0
  | S n' => zsum f n' + f n'
  end.

Fixpoint qsum (f : nat -> Q) (n : nat) : Q :=
  match n with
  | O => 0
  | S n' => qsum f n' + f n'
  end.

End Closed.

(** ** Taylor coefficients of a quotient *)

Module Series.
Import Num Poly.

(** [conv q n cs] is the sum of [q (n+i) * cs[i]] over the list [cs]. *)
Fixpoint conv (q : nat -> Q) (n : nat) (cs : list Q) : Q :=
  match cs with
  | [] => 0
  | c :: t => q n * c + conv q (S n) t
  end.

(** The first [n] coefficients of the power series [p/q] about 0, the
    latest first: the coefficient [c_m] is settled by the product rule
    [q_0*c_m + q_1*c_(m-1) + ... + q_m*c_0 = p_m]. *)
Fixpoint quotient_coeffs (p q : nat -> Q) (n : nat) : list Q :=
  match n with
  | O => []
  | S m =>
      let cs := quotient_coeffs p q m in
      ((p m - conv q 1 cs) / q 0%nat) :: cs
  end.

(** The degree-[m] Taylor coefficient about 0 of the rational function
    [P(z)/Q(z)]. *)
Definition taylor_coeff (P Qd : poly1d) (m : nat) : Q :=
  hd 0 (quotient_coeffs (fun i => getitem P (Z.of_nat i))
                        (fun i => getitem Qd (Z.of_nat i)) (S m)).

(** The degree-[m] Taylor coefficient of [exp(z)]. *)
Definition exp_coeff (m : nat) : Q := 1 / factorial m.



(** [n!] as an integer, by binary arithmetic. *)
Fixpoint zfact (n : nat) : Z :=
  match n with
  | O => 1
  | S m => Z.of_nat n * zfact m
  end.



End Series.

(** ** Checks by computation on the binary64 approximants *)

Module Checks.
Import Num Poly Series.


(** The quotient [1./factorial(i)] is [1/i!] rounded to nearest: within
    half a unit in the last place, that is within [2^-53] of it in relative
    terms. *)
Definition reciprocal_rounded (i : nat) : bool :=
  match B64.to_Q (PrimFloat.div 1 (B64.product_factorial i)) with
  | Some c =>
      Qle_bool (Qabs (c - 1 / inject_Z (zfact i)))
               ((1 / inject_Z (zfact i)) * (1 # (2 ^ 53)))
  | None => false
  end.




End Checks.

Import Num Poly Approx Cplx Render Inputs Closed Series Checks.

(** * Properties *)

(** ** Lists of coefficients *)

Lemma descending_S (f : nat -> Q) (n : nat) :
  descending f (S n) = f (S n) :: descending f n.
Proof.
  unfold descending.
  replace (seq 0 (S (S n))) with (seq 0 (S n) ++ [S n])%list
    by (symmetry; apply (seq_S (S n) 0)).
  now rewrite rev_app_distr.
Qed.

Lemma descending_length (f : nat -> Q) (n : nat) :
  List.length (descending f n) = S n.
Proof.
  unfold descending. now rewrite length_map, length_rev, length_seq.
Qed.

Lemma descending_nth (f : nat -> Q) (n i : nat) :
  (i <= n)%nat -> nth i (descending f n) 0 = f (n - i)%nat.
Proof.
  revert i. induction n as [|n IH]; intros i Hi.
  - assert (i = 0%nat) by lia. subst. reflexivity.
  - rewrite descending_S. destruct i as [|i]; [reflexivity|].
    simpl. apply IH. lia.
Qed.

Lemma make_nonzero_head (c : Q) (t : list Q) :
  Qeq_bool c 0 = false ->
  make (c :: t) = mk_poly1d (c :: t) (Z.of_nat (List.length t)).
Proof.
  intros H. unfold make. cbn [trim_zeros_f]. rewrite H.
  cbn [List.length]. f_equal. lia.
Qed.

Lemma make_descending (f : nat -> Q) (n : nat) :
  Qeq_bool (f n) 0 = false ->
  make (descending f n) = mk_poly1d (descending f n) (Z.of_nat n).
Proof.
  intros H. destruct n as [|n].
  - unfold descending. simpl. unfold make. simpl. now rewrite H.
  - rewrite descending_S, make_nonzero_head by assumption.
    now rewrite descending_length.
Qed.

Lemma getitem_descending (f : nat -> Q) (n i : nat) :
  (i <= n)%nat ->
  getitem (mk_poly1d (descending f n) (Z.of_nat n)) (Z.of_nat i) = f i.
Proof.
  intros Hi. unfold getitem. simpl.
  destruct (Z.gtb_spec (Z.of_nat i) (Z.of_nat n)); [lia|].
  destruct (Z.ltb_spec (Z.of_nat i) 0); [lia|].
  replace (Z.to_nat (Z.of_nat n - Z.of_nat i)) with (n - i)%nat by lia.
  rewrite descending_nth by lia. f_equal. lia.
Qed.

Lemma getitem_above (p : poly1d) (i : Z) :
  (order p < i)%Z -> getitem p i = 0.
Proof.
  intros H. unfold getitem. destruct (Z.gtb_spec i (order p)); [reflexivity|lia].
Qed.

Lemma horner_at_0 (l : list Q) (a y : Q) :
  fold_left (fun y pv => y * 0 + pv) (l ++ [a])%list y == a.
Proof.
  rewrite fold_left_app. simpl. ring.
Qed.

Lemma polyval_descending_0 (f : nat -> Q) (n : nat) (o : Z) :
  polyval (mk_poly1d (descending f n) o) 0 == f 0%nat.
Proof.
  unfold polyval, descending. simpl coeffs.
  change (seq 0 (S n)) with (0%nat :: seq 1 n).
  simpl rev. rewrite map_app. simpl map. apply horner_at_0.
Qed.

(** ** The loops of [pade_exp] never divide by zero *)

Lemma float_of_int_succ_nonzero (a : Z) :
  (0 <= a)%Z -> Qeq_bool (float_of_int a + 1) 0 = false.
Proof.
  intros Ha. destruct (Qeq_bool (float_of_int a + 1) 0) eqn:E; [|reflexivity].
  apply Qeq_bool_eq in E. unfold float_of_int, Qeq, inject_Z, Qplus in E.
  simpl in E. lia.
Qed.

Lemma float_of_int_nonzero (a : Z) :
  (0 < a)%Z -> Qeq_bool (float_of_int a) 0 = false.
Proof.
  intros Ha. destruct (Qeq_bool (float_of_int a) 0) eqn:E; [|reflexivity].
  apply Qeq_bool_eq in E. unfold float_of_int, Qeq, inject_Z in E.
  simpl in E. lia.
Qed.

Lemma range_1_nat (n : nat) :
  range 1 (Z.of_nat n + 1) = map (fun i => (1 + Z.of_nat i)%Z) (seq 0 n).
Proof.
  unfold range. now replace (Z.to_nat (Z.of_nat n + 1 - 1)) with n by lia.
Qed.

Lemma range_1_S (n : nat) :
  range 1 (Z.of_nat (S n) + 1) = (range 1 (Z.of_nat n + 1) ++ [Z.of_nat (S n)])%list.
Proof.
  rewrite !range_1_nat, seq_S, map_app. cbn [map].
  replace (1 + Z.of_nat (0 + n))%Z with (Z.of_nat (S n)) by lia.
  reflexivity.
Qed.

Lemma hd_descending (f : nat -> Q) (n : nat) : hd 0 (descending f n) = f n.
Proof.
  destruct n; [reflexivity|]. now rewrite descending_S.
Qed.

Lemma P_step_descending (k j : Z) (n : nat) :
  (Z.of_nat (S n) <= k)%Z -> (0 <= j)%Z ->
  P_step k j (Some (descending (pcoef k j) n)) (Z.of_nat (S n))
  = Some (descending (pcoef k j) (S n)).
Proof.
  intros Hk Hj. unfold P_step, py_div.
  rewrite float_of_int_succ_nonzero by lia.
  rewrite float_of_int_nonzero by lia.
  now rewrite hd_descending, descending_S.
Qed.

Lemma Q_step_descending (k j : Z) (n : nat) :
  (Z.of_nat (S n) <= j)%Z -> (0 <= k)%Z ->
  Q_step k j (Some (descending (qcoef k j) n)) (Z.of_nat (S n))
  = Some (descending (qcoef k j) (S n)).
Proof.
  intros Hj Hk. unfold Q_step, py_div.
  rewrite float_of_int_succ_nonzero by lia.
  rewrite float_of_int_nonzero by lia.
  now rewrite hd_descending, descending_S.
Qed.

Lemma Pcoeffs_upto (k j : Z) (n : nat) :
  (Z.of_nat n <= k)%Z -> (0 <= j)%Z ->
  fold_left (P_step k j) (range 1 (Z.of_nat n + 1)) (Some [1])
  = Some (descending (pcoef k j) n).
Proof.
  intros Hk Hj. induction n as [|n IH]; [reflexivity|].
  rewrite range_1_S, fold_left_app, IH by lia.
  simpl fold_left. now apply P_step_descending.
Qed.

Lemma Qcoeffs_upto (k j : Z) (n : nat) :
  (Z.of_nat n <= j)%Z -> (0 <= k)%Z ->
  fold_left (Q_step k j) (range 1 (Z.of_nat n + 1)) (Some [1])
  = Some (descending (qcoef k j) n).
Proof.
  intros Hj Hk. induction n as [|n IH]; [reflexivity|].
  rewrite range_1_S, fold_left_app, IH by lia.
  simpl fold_left. now apply Q_step_descending.
Qed.

Lemma Pcoeffs_loop_closed (k j : Z) :
  (0 <= k)%Z -> (0 <= j)%Z ->
  Pcoeffs_loop k j = Some (descending (pcoef k j) (Z.to_nat k)).
Proof.
  intros Hk Hj. unfold Pcoeffs_loop.
  rewrite <- (Z2Nat.id k) at 2 by assumption.
  apply Pcoeffs_upto; lia.
Qed.

Lemma Qcoeffs_loop_closed (k j : Z) :
  (0 <= k)%Z -> (0 <= j)%Z ->
  Qcoeffs_loop k j = Some (descending (qcoef k j) (Z.to_nat j)).
Proof.
  intros Hk Hj. unfold Qcoeffs_loop.
  rewrite <- (Z2Nat.id j) at 2 by assumption.
  apply Qcoeffs_upto; lia.
Qed.

(** ** Signs of the coefficients *)

Lemma float_of_int_succ_pos (a : Z) : (0 <= a)%Z -> 0 < float_of_int a + 1.
Proof.
  intros Ha. unfold float_of_int, Qlt, inject_Z, Qplus. simpl. lia.
Qed.

Lemma float_of_int_pos (a : Z) : (0 < a)%Z -> 0 < float_of_int a.
Proof.
  intros Ha. unfold float_of_int, Qlt, inject_Z. simpl. lia.
Qed.

Lemma Qdiv_pos (a b : Q) : 0 < a -> 0 < b -> 0 < a / b.
Proof.
  intros Ha Hb. unfold Qdiv. apply Qmult_lt_0_compat; [assumption|].
  now apply Qinv_lt_0_compat.
Qed.

Lemma pcoef_pos (k j : Z) (n : nat) :
  (Z.of_nat n <= k)%Z -> (0 <= j)%Z -> 0 < pcoef k j n.
Proof.
  intros Hk Hj. induction n as [|n IH]; [reflexivity|].
  cbn [pcoef]. apply Qdiv_pos; [apply Qdiv_pos|].
  - apply Qmult_lt_0_compat; [apply IH; lia|].
    apply float_of_int_succ_pos. lia.
  - apply float_of_int_succ_pos. lia.
  - apply float_of_int_pos. lia.
Qed.

Lemma minus_one_pow_S (n : nat) :
  (-1) ^ Z.of_nat (S n) == (-1) * (-1) ^ Z.of_nat n.
Proof.
  rewrite Nat2Z.inj_succ, <- Z.add_1_l.
  rewrite Qpower_plus by discriminate. reflexivity.
Qed.

Lemma minus_one_pow_square (n : nat) :
  (-1) ^ Z.of_nat n * (-1) ^ Z.of_nat n == 1.
Proof.
  induction n as [|n IH]; [reflexivity|].
  rewrite minus_one_pow_S.
  setoid_replace (-1 * (-1) ^ Z.of_nat n * (-1 * (-1) ^ Z.of_nat n))
    with ((-1) ^ Z.of_nat n * (-1) ^ Z.of_nat n) by ring.
  exact IH.
Qed.

(** The recurrence of the denominator is the recurrence of the numerator
    with the two degrees exchanged and the sign alternating. *)
Lemma qcoef_pcoef (k j : Z) (n : nat) :
  qcoef k j n == (-1) ^ Z.of_nat n * pcoef j k n.
Proof.
  induction n as [|n IH]; [reflexivity|].
  cbn [qcoef pcoef]. rewrite IH, minus_one_pow_S.
  rewrite (Z.add_comm k j). unfold Qdiv. ring.
Qed.

Lemma qcoef_nonzero (k j : Z) (n : nat) :
  (Z.of_nat n <= j)%Z -> (0 <= k)%Z -> ~ qcoef k j n == 0.
Proof.
  intros Hj Hk E. rewrite qcoef_pcoef in E.
  assert (Hp := pcoef_pos j k n Hj Hk).
  assert (Hs := minus_one_pow_square n).
  assert (H0 : pcoef j k n == 0).
  { setoid_replace (pcoef j k n)
      with ((-1) ^ Z.of_nat n * ((-1) ^ Z.of_nat n * pcoef j k n)).
    - rewrite E. ring.
    - rewrite Qmult_assoc, Hs. ring. }
  rewrite H0 in Hp. discriminate.
Qed.

Lemma Qeq_bool_false (a : Q) : ~ a == 0 -> Qeq_bool a 0 = false.
Proof.
  intros H. destruct (Qeq_bool a 0) eqn:E; [|reflexivity].
  now apply Qeq_bool_eq in E.
Qed.

(** ** What [pade_exp] returns *)

Lemma pade_exp_closed (k j : Z) :
  (0 <= k)%Z -> (0 <= j)%Z ->
  pade_exp k j
  = Some (mk_poly1d (descending (pcoef k j) (Z.to_nat k)) k,
          mk_poly1d (descending (qcoef k j) (Z.to_nat j)) j).
Proof.
  intros Hk Hj. unfold pade_exp.
  rewrite Pcoeffs_loop_closed, Qcoeffs_loop_closed by assumption.
  rewrite !make_descending.
  - now rewrite !Z2Nat.id by assumption.
  - apply Qeq_bool_false, qcoef_nonzero; lia.
  - apply Qeq_bool_false. intros E.
    assert (Hp := pcoef_pos k j (Z.to_nat k)).
    rewrite E in Hp. assert (0 < 0) by (apply Hp; lia). discriminate.
Qed.

(** Over the rationals, without rounding: for non-negative [k] and [j],
    [pade_exp(k, j)] returns two
    polynomials [P] and [Q] with [P(0) = 1], [Q(0) = 1], [P] of degree
    exactly [k] and [Q] of degree exactly [j]. *)
Theorem pade_exp_values_and_degrees (k j : Z) :
  (0 <= k)%Z -> (0 <= j)%Z ->
  exists P Qd : poly1d,
    pade_exp k j = Some (P, Qd) /\
    polyval P 0 == 1 /\ polyval Qd 0 == 1 /\
    order P = k /\ order Qd = j.
Proof.
  intros Hk Hj. eexists. eexists.
  split; [apply pade_exp_closed; assumption|].
  repeat split.
  - now rewrite polyval_descending_0.
  - now rewrite polyval_descending_0.
Qed.

Lemma pade_exp_values_and_degrees_witness :
  exists P Qd : poly1d,
    pade_exp 3 2 = Some (P, Qd) /\
    polyval P 0 == 1 /\ polyval Qd 0 == 1 /\
    order P = 3%Z /\ order Qd = 2%Z.
Proof.
  apply (pade_exp_values_and_degrees 3 2); lia.
Defined.

(** ** [taylor] *)

Lemma factorial_pos (n : nat) : 0 < factorial n.
Proof.
  unfold factorial, Qlt, inject_Z. simpl.
  assert (H := lt_O_fact n). lia.
Qed.

Lemma factorial_S (n : nat) :
  factorial (S n) == float_of_int (Z.of_nat (S n)) * factorial n.
Proof.
  unfold factorial, float_of_int. rewrite <- inject_Z_mult.
  rewrite <- Nat2Z.inj_mul. reflexivity.
Qed.

Lemma exp_coeff_nonzero (n : nat) : Qeq_bool (1 / factorial n) 0 = false.
Proof.
  apply Qeq_bool_false. intros E.
  assert (H : 0 < 1 / factorial n)
    by (apply Qdiv_pos; [reflexivity|apply factorial_pos]).
  rewrite E in H. discriminate.
Qed.

Lemma taylor_closed (p : Z) :
  (0 <= p)%Z ->
  taylor p
  = mk_poly1d (descending (fun i => 1 / factorial i) (Z.to_nat p)) p.
Proof.
  intros Hp. unfold taylor, arange.
  replace (Z.to_nat (p + 1)) with (S (Z.to_nat p)) by lia.
  rewrite <- map_rev. fold (descending (fun i => 1 / factorial i) (Z.to_nat p)).
  rewrite make_descending by apply exp_coeff_nonzero.
  now rewrite Z2Nat.id.
Qed.

(** Over the rationals, without rounding: for non-negative [p],
    [taylor(p)] is a polynomial of degree [p]
    whose coefficients, stored highest degree first, are [1/i!] at degree
    [i] for [i] from 0 to [p], and whose value at 0 is 1; [taylor(0)] is the
    constant polynomial 1. *)
Theorem taylor_coefficients (p : Z) :
  (0 <= p)%Z ->
  order (taylor p) = p /\
  List.length (coeffs (taylor p)) = S (Z.to_nat p) /\
  (forall i : nat, (i <= Z.to_nat p)%nat ->
     nth i (coeffs (taylor p)) 0 = 1 / factorial (Z.to_nat p - i)) /\
  (forall i : nat, (i <= Z.to_nat p)%nat ->
     getitem (taylor p) (Z.of_nat i) = 1 / factorial i) /\
  polyval (taylor p) 0 == 1 /\
  taylor 0 = mk_poly1d [1] 0.
Proof.
  intros Hp. rewrite (taylor_closed p Hp). cbn [order coeffs].
  split; [reflexivity|].
  split; [apply descending_length|].
  split; [intros i Hi; now apply descending_nth|].
  split.
  - intros i Hi.
    assert (G := getitem_descending (fun i => 1 / factorial i) _ i Hi).
    now rewrite Z2Nat.id in G by assumption.
  - split; [|reflexivity]. rewrite polyval_descending_0. reflexivity.
Qed.

Lemma taylor_coefficients_witness :
  order (taylor 4) = 4%Z /\
  List.length (coeffs (taylor 4)) = S (Z.to_nat 4) /\
  (forall i : nat, (i <= Z.to_nat 4)%nat ->
     nth i (coeffs (taylor 4)) 0 = 1 / factorial (Z.to_nat 4 - i)) /\
  (forall i : nat, (i <= Z.to_nat 4)%nat ->
     getitem (taylor 4) (Z.of_nat i) = 1 / factorial i) /\
  polyval (taylor 4) 0 == 1 /\
  taylor 0 = mk_poly1d [1] 0.
Proof.
  apply (taylor_coefficients 4). lia.
Defined.

(** ** Zero-degree denominator *)

Lemma descending_Forall2 (f g : nat -> Q) (n : nat) :
  (forall i : nat, (i <= n)%nat -> f i == g i) ->
  Forall2 Qeq (descending f n) (descending g n).
Proof.
  intros H. induction n as [|n IH].
  - constructor; [apply H; lia|constructor].
  - rewrite !descending_S. constructor; [apply H; lia|].
    apply IH. intros i Hi. apply H. lia.
Qed.

Lemma pcoef_j0 (k : Z) (n : nat) :
  (Z.of_nat n <= k)%Z -> pcoef k 0 n == 1 / factorial n.
Proof.
  intros Hk. induction n as [|n IH]; [reflexivity|].
  cbn [pcoef]. rewrite IH by lia. rewrite factorial_S.
  rewrite Z.add_0_l.
  assert (Ha : ~ float_of_int (k - Z.of_nat (S n)) + 1 == 0).
  { intros E. assert (H := float_of_int_succ_pos (k - Z.of_nat (S n))).
    rewrite E in H. assert (0 < 0) by (apply H; lia). discriminate. }
  assert (Hb : ~ float_of_int (Z.of_nat (S n)) == 0).
  { intros E. assert (H := float_of_int_pos (Z.of_nat (S n))).
    rewrite E in H. assert (0 < 0) by (apply H; lia). discriminate. }
  assert (Hc : ~ factorial n == 0).
  { intros E. assert (H := factorial_pos n). rewrite E in H. discriminate. }
  field. auto.
Qed.

(** Over the rationals, without rounding: for non-negative [k], the
    numerator of [pade_exp(k, 0)] has the
    same [k+1] coefficients as [taylor(k)], and its denominator is the
    constant polynomial 1. *)
Theorem pade_exp_zero_denominator (k : Z) :
  (0 <= k)%Z ->
  exists P Qd : poly1d,
    pade_exp k 0 = Some (P, Qd) /\
    List.length (coeffs P) = S (Z.to_nat k) /\
    Forall2 Qeq (coeffs P) (coeffs (taylor k)) /\
    order P = order (taylor k) /\
    Qd = mk_poly1d [1] 0.
Proof.
  intros Hk. eexists. eexists.
  split; [apply pade_exp_closed; lia|].
  rewrite (taylor_closed k Hk). cbn [coeffs order].
  split; [apply descending_length|].
  split; [|split; reflexivity].
  apply descending_Forall2. intros i Hi. apply pcoef_j0. lia.
Qed.

Lemma pade_exp_zero_denominator_witness :
  exists P Qd : poly1d,
    pade_exp 5 0 = Some (P, Qd) /\
    List.length (coeffs P) = S (Z.to_nat 5) /\
    Forall2 Qeq (coeffs P) (coeffs (taylor 5)) /\
    order P = order (taylor 5) /\
    Qd = mk_poly1d [1] 0.
Proof.
  apply (pade_exp_zero_denominator 5). lia.
Defined.

(** ** Exchanging the two degrees *)

Lemma getitem_descending_Z (f : nat -> Q) (k i : Z) :
  (0 <= i <= k)%Z ->
  getitem (mk_poly1d (descending f (Z.to_nat k)) k) i = f (Z.to_nat i).
Proof.
  intros Hi.
  assert (G := getitem_descending f (Z.to_nat k) (Z.to_nat i)).
  rewrite !Z2Nat.id in G by lia. apply G. lia.
Qed.

Lemma horner_reflect (f g : nat -> Q) (z : Q) (n : nat) (y y' : Q) :
  (forall i : nat, (i <= n)%nat -> g i == (-1) ^ Z.of_nat i * f i) ->
  y == (-1) ^ Z.of_nat (S n) * y' ->
  fold_left (fun a pv => a * z + pv) (descending g n) y
  == fold_left (fun a pv => a * - z + pv) (descending f n) y'.
Proof.
  revert y y'. induction n as [|n IH]; intros y y' H Hy.
  - unfold descending. simpl. rewrite Hy, (H 0%nat) by lia.
    simpl. ring.
  - rewrite !descending_S. cbn [fold_left]. apply IH.
    + intros i Hi. apply H. lia.
    + rewrite Hy, (H (S n)) by lia. rewrite (minus_one_pow_S (S n)). ring.
Qed.

(** C10: for non-negative [k] and [j] and [0 <= n <= j], the degree-[n]
    coefficient of the denominator of [pade_exp(k, j)] is [(-1)^n] times the
    degree-[n] coefficient of the numerator of [pade_exp(j, k)]; as
    polynomials, [Q_{k,j}(z) = P_{j,k}(-z)]. *)
Theorem pade_exp_reflection (k j : Z) :
  (0 <= k)%Z -> (0 <= j)%Z ->
  exists P Qd P' Qd' : poly1d,
    pade_exp k j = Some (P, Qd) /\
    pade_exp j k = Some (P', Qd') /\
    (forall n : Z, (0 <= n <= j)%Z ->
       getitem Qd n == (-1) ^ n * getitem P' n) /\
    (forall z : Q, polyval Qd z == polyval P' (- z)).
Proof.
  intros Hk Hj. do 4 eexists.
  split; [apply pade_exp_closed; assumption|].
  split; [apply pade_exp_closed; assumption|].
  split.
  - intros n Hn. rewrite !getitem_descending_Z by assumption.
    rewrite qcoef_pcoef. now rewrite Z2Nat.id by lia.
  - intros z. unfold polyval. cbn [coeffs]. apply horner_reflect.
    + intros i _. apply qcoef_pcoef.
    + ring.
Qed.

Lemma pade_exp_reflection_witness :
  exists P Qd P' Qd' : poly1d,
    pade_exp 2 3 = Some (P, Qd) /\
    pade_exp 3 2 = Some (P', Qd') /\
    (forall n : Z, (0 <= n <= 3)%Z ->
       getitem Qd n == (-1) ^ n * getitem P' n) /\
    (forall z : Q, polyval Qd z == polyval P' (- z)).
Proof.
  apply (pade_exp_reflection 2 3); lia.
Defined.

(** ** The stability-region renderer: which branch is taken *)

Lemma Qlt_bool_iff (a b : Q) : Qlt_bool a b = true <-> a < b.
Proof.
  unfold Qlt_bool. rewrite negb_true_iff. split.
  - intros H. apply Qnot_le_lt. intros L.
    apply Qle_bool_iff in L. congruence.
  - intros H. destruct (Qle_bool b a) eqn:E; [|reflexivity].
    apply Qle_bool_iff in E. exfalso. now apply (Qlt_not_le a b).
Qed.

Lemma unbounded_test_iff (p q : poly1d) :
  unbounded_test p q = true <-> unbounded_condition p q.
Proof.
  unfold unbounded_test, unbounded_condition.
  rewrite orb_true_iff, andb_true_iff, Z.ltb_lt, Z.eqb_eq, Qlt_bool_iff.
  reflexivity.
Qed.

(** When the first test holds the second one, on equal magnitudes, fails. *)
Lemma unbounded_not_equal (p q : poly1d) :
  unbounded_test p q = true ->
  (order p =? order q)%Z
  && Qeq_bool (Qabs (getitem p (order p))) (Qabs (getitem q (order q))) = false.
Proof.
  intros H. apply unbounded_test_iff in H.
  destruct H as [H|[H1 H2]].
  - destruct (Z.eqb_spec (order p) (order q)); [lia|reflexivity].
  - apply andb_false_iff. right.
    destruct (Qeq_bool _ _) eqn:E; [|reflexivity].
    apply Qeq_bool_eq in E. rewrite E in H2.
    exfalso. now apply (Qlt_irrefl _ H2).
Qed.

Section RendererFacts.

Variable find_plot_bounds : (C -> bool) -> bounds -> bounds.

Lemma select_bounds_unbounded (p q : poly1d) :
  unbounded_test p q = true ->
  select_bounds find_plot_bounds p q
  = (fixed_rectangle (order p), [Print msg_unbounded]).
Proof.
  intros H. unfold select_bounds. rewrite H.
  now rewrite (unbounded_not_equal p q H).
Qed.

Lemma select_bounds_bounded (p q : poly1d) :
  unbounded_test p q = false ->
  select_bounds find_plot_bounds p q
  = (find_plot_bounds (stable p q) initial_guess,
     FindPlotBounds initial_guess ::
     (if Qlt_bool (min_abs (find_plot_bounds (stable p q) initial_guess)) tiny
      then [Print msg_no_region] else []) ++
     (if (order p =? order q)%Z
         && Qeq_bool (Qabs (getitem p (order p))) (Qabs (getitem q (order q)))
      then [Print msg_may_be_unbounded] else [])).
Proof.
  intros H. unfold select_bounds. now rewrite H.
Qed.

(** The trace of a call is the log of the bound selection followed by
    drawing commands only. *)
Lemma plot_trace_split (p q : poly1d) (N : nat) (color : string)
    (filled plotroots : bool) (alpha scalefac : Q) (fignum : option Z) :
  exists drawing : list event,
    plot_stability_region find_plot_bounds p q N color filled plotroots
      alpha scalefac fignum
    = (snd (select_bounds find_plot_bounds p q) ++ drawing)%list /\
    forallb is_drawing drawing = true.
Proof.
  unfold plot_stability_region.
  destruct (select_bounds find_plot_bounds p q) as [bnds log].
  eexists. split; [reflexivity|].
  destruct filled, plotroots, (len q >? 1)%Z; reflexivity.
Qed.

Lemma not_in_drawing (drawing : list event) (e : event) :
  forallb is_drawing drawing = true -> is_drawing e = false ->
  ~ In e drawing.
Proof.
  intros H He Hin. rewrite forallb_forall in H.
  specialize (H e Hin). congruence.
Qed.

End RendererFacts.

(** Which of the two openings a trace has. *)
Lemma branch_notices
    (find_plot_bounds : (C -> bool) -> bounds -> bounds)
    (p q : poly1d) (N : nat) (color : string) (filled plotroots : bool)
    (alpha scalefac : Q) (fignum : option Z) :
  (In (Print msg_unbounded)
      (plot_stability_region find_plot_bounds p q N color filled plotroots
         alpha scalefac fignum)
   <-> unbounded_condition p q) /\
  ((forall guess : bounds,
      ~ In (FindPlotBounds guess)
          (plot_stability_region find_plot_bounds p q N color filled
             plotroots alpha scalefac fignum))
   <-> unbounded_condition p q).
Proof.
  destruct (plot_trace_split find_plot_bounds p q N color filled plotroots
              alpha scalefac fignum) as [drawing [-> Hd]].
  rewrite <- unbounded_test_iff.
  destruct (unbounded_test p q) eqn:E.
  - rewrite (select_bounds_unbounded find_plot_bounds p q E). cbn [fst snd].
    repeat split; try reflexivity.
    + intros _. apply in_or_app. left. now left.
    + intros _ guess Hin. apply in_app_or in Hin. destruct Hin as [Hin|Hin].
      * destruct Hin as [Hin|[]]. discriminate.
      * now apply (not_in_drawing drawing (FindPlotBounds guess) Hd).
  - rewrite (select_bounds_bounded find_plot_bounds p q E). cbn [fst snd].
    repeat split; try reflexivity; try discriminate.
    + intros Hin. exfalso. apply in_app_or in Hin. destruct Hin as [Hin|Hin].
      * destruct Hin as [Hin|Hin]; [discriminate|].
        apply in_app_or in Hin. destruct Hin as [Hin|Hin].
        -- destruct (Qlt_bool _ _); [destruct Hin as [Hin|[]]|destruct Hin].
           discriminate.
        -- destruct (_ && _); [destruct Hin as [Hin|[]]|destruct Hin].
           discriminate.
      * now apply (not_in_drawing drawing (Print msg_unbounded) Hd).
    + intros H. exfalso. apply (H initial_guess).
      apply in_or_app. left. now left.
Qed.

(** C3: [plot_stability_region] takes the unbounded branch if and only if
    [m < n], or [m = n] and the leading coefficient of [p] is smaller in
    magnitude than that of [q].  Under that condition the call prints the
    unbounded notice, never asks for a bound search, and everything it draws
    is over the rectangle [(-10m, m, -5m, 5m)]: the sample points are
    [linspace(-10m, m, N)] and [linspace(-5m, 5m, N)], the contour is that
    of the magnitude field on their grid, and the two axis lines run from
    [-5m] to [5m] and from [-10m] to [m].  Otherwise the call starts with
    the bound search from the guess [(-10, 1, -5, 5)], does not print the
    unbounded notice, and draws all of that over the rectangle the search
    returned. *)
Theorem unbounded_branch_iff
    (find_plot_bounds : (C -> bool) -> bounds -> bounds)
    (p q : poly1d) (N : nat) (color : string) (filled plotroots : bool)
    (alpha scalefac : Q) (fignum : option Z) :
  let trace :=
    plot_stability_region find_plot_bounds p q N color filled plotroots
      alpha scalefac fignum in
  let drawn_over (xmin xmax ymin ymax : Q) : list event :=
    let X := tile_rows (linspace xmin xmax N) N in
    let Y := tile_cols (linspace ymin ymax N) N in
    let R := magnitude_field p q scalefac (grid X Y) in
    [Figure fignum; Hold true;
     if filled then Contourf X Y R [0; 1] color alpha
     else Contour X Y R [0; 1] color alpha 3] ++
    (if plotroots then [PlotRootsOf p "ok"] else []) ++
    (if (len q >? 1)%Z then [PlotRootsOf q "xk"] else []) ++
    [PlotLine [0; 0] [ymin; ymax] "--k" 2;
     PlotLine [xmin; xmax] [0; 0] "--k" 2;
     Axis "Image"; Hold false] in
  (In (Print msg_unbounded) trace <-> unbounded_condition p q) /\
  ((forall guess : bounds, ~ In (FindPlotBounds guess) trace)
   <-> unbounded_condition p q) /\
  (unbounded_condition p q ->
   let m := order p in
   trace
   = (Print msg_unbounded
      :: drawn_over (float_of_int (-10 * m)) (float_of_int m)
           (float_of_int (-5 * m)) (float_of_int (5 * m)))%list) /\
  (~ unbounded_condition p q ->
   exists (xmin xmax ymin ymax : Q) (notices : list event),
     find_plot_bounds (stable p q) (-(10), 1, -(5), 5)
     = (xmin, xmax, ymin, ymax) /\
     Forall (fun e => e = Print msg_no_region
                      \/ e = Print msg_may_be_unbounded) notices /\
     trace
     = (FindPlotBounds (-(10), 1, -(5), 5)
        :: notices ++ drawn_over xmin xmax ymin ymax)%list) /\
  (fst (select_bounds find_plot_bounds p q)
   = if unbounded_test p q then fixed_rectangle (order p)
     else find_plot_bounds (stable p q) initial_guess) /\
  (unbounded_test p q = true <-> unbounded_condition p q).
Proof.
  intros trace drawn_over.
  assert (Hin := branch_notices find_plot_bounds p q N color filled plotroots
                  alpha scalefac fignum).
  fold trace in Hin.
  destruct Hin as [Hprint Hsearch].
  split; [exact Hprint|]. split; [exact Hsearch|].
  split.
  { intros Hc m. apply unbounded_test_iff in Hc.
    subst trace drawn_over. unfold plot_stability_region.
    rewrite (select_bounds_unbounded find_plot_bounds p q Hc).
    reflexivity. }
  split.
  { intros Hc.
    assert (E : unbounded_test p q = false).
    { destruct (unbounded_test p q) eqn:E; [|reflexivity].
      exfalso. apply Hc. now apply unbounded_test_iff. }
    destruct (find_plot_bounds (stable p q) (-(10), 1, -(5), 5))
      as [[[xmin xmax] ymin] ymax] eqn:Eb.
    exists xmin, xmax, ymin, ymax.
    exists ((if Qlt_bool (min_abs (xmin, xmax, ymin, ymax)) tiny
             then [Print msg_no_region] else []) ++
            (if (order p =? order q)%Z
                && Qeq_bool (Qabs (getitem p (order p)))
                     (Qabs (getitem q (order q)))
             then [Print msg_may_be_unbounded] else []))%list.
    split; [reflexivity|]. split.
    { apply Forall_app. split.
      - destruct (Qlt_bool _ _); repeat constructor.
      - destruct (_ && _); [|constructor].
        constructor; [now right|constructor]. }
    subst trace drawn_over. unfold plot_stability_region.
    rewrite (select_bounds_bounded find_plot_bounds p q E).
    unfold initial_guess. rewrite Eb.
    cbn [bounds_get bounds_list nth]. cbn [app].
    rewrite <- !app_assoc. reflexivity. }
  split.
  - destruct (unbounded_test p q) eqn:E.
    + now rewrite (select_bounds_unbounded find_plot_bounds p q E).
    + now rewrite (select_bounds_bounded find_plot_bounds p q E).
  - apply unbounded_test_iff.
Qed.

(** ** The notice on an empty region *)

Lemma select_bounds_log_not_drawing
    (find_plot_bounds : (C -> bool) -> bounds -> bounds) (p q : poly1d) :
  forallb (fun e => negb (is_drawing e))
    (snd (select_bounds find_plot_bounds p q)) = true.
Proof.
  unfold select_bounds.
  repeat match goal with
         | |- context [if ?c then _ else _] => destruct c
         end; reflexivity.
Qed.

Lemma min_abs_lt_iff (b : bounds) (eps : Q) :
  min_abs b < eps <-> exists x : Q, In x (bounds_list b) /\ Qabs x < eps.
Proof.
  destruct b as [[[b0 b1] b2] b3]. unfold min_abs, bounds_list.
  rewrite !Q.min_lt_iff. split.
  - intros [[[H|H]|H]|H]; eexists; (split; [|exact H]); simpl; auto.
  - intros [x [Hin H]]. simpl in Hin.
    destruct Hin as [<-|[<-|[<-|[<-|[]]]]]; auto.
Qed.

(** The notice is in the trace exactly when the bounded branch ran and the
    smallest magnitude among the four bounds is below [1.e-14]. *)
Lemma no_region_notice_in_trace
    (find_plot_bounds : (C -> bool) -> bounds -> bounds)
    (p q : poly1d) (N : nat) (color : string) (filled plotroots : bool)
    (alpha scalefac : Q) (fignum : option Z) :
  In (Print msg_no_region)
     (plot_stability_region find_plot_bounds p q N color filled plotroots
        alpha scalefac fignum)
  <-> unbounded_test p q = false /\
      Qlt_bool (min_abs (find_plot_bounds (stable p q) initial_guess)) tiny
      = true.
Proof.
  destruct (plot_trace_split find_plot_bounds p q N color filled plotroots
              alpha scalefac fignum) as [drawing [-> Hd]].
  rewrite in_app_iff.
  assert (Hn := not_in_drawing drawing (Print msg_no_region) Hd eq_refl).
  destruct (unbounded_test p q) eqn:E.
  - rewrite (select_bounds_unbounded find_plot_bounds p q E). cbn [snd].
    split; [|intros [? _]; discriminate].
    intros [[H|[]]|H]; [discriminate|contradiction].
  - rewrite (select_bounds_bounded find_plot_bounds p q E). cbn [snd].
    destruct (Qlt_bool _ _).
    + split; [auto|]. intros _. left. right. now left.
    + split; [|intros [_ ?]; discriminate].
      intros [[H|H]|H]; [discriminate| |contradiction].
      destruct (_ && _); [destruct H as [H|[]]|destruct H]. discriminate.
Qed.

(** C4, as amended: the notice that no stable region was found is printed
    exactly when the bounded branch ran and at least one of the four bounds
    returned by the search has magnitude below [1.e-14]; it is not printed
    when all four have magnitude [1.e-14] or more.  The threshold is the
    binary64 number the literal [1.e-14] denotes. *)
Theorem no_region_notice_iff
    (find_plot_bounds : (C -> bool) -> bounds -> bounds)
    (p q : poly1d) (N : nat) (color : string) (filled plotroots : bool)
    (alpha scalefac : Q) (fignum : option Z) :
  (In (Print msg_no_region)
      (plot_stability_region find_plot_bounds p q N color filled plotroots
         alpha scalefac fignum)
   <-> ~ unbounded_condition p q /\
       exists x : Q,
         In x (bounds_list (find_plot_bounds (stable p q) initial_guess)) /\
         Qabs x < tiny) /\
  ((forall x : Q,
      In x (bounds_list (find_plot_bounds (stable p q) initial_guess)) ->
      tiny <= Qabs x) ->
   ~ In (Print msg_no_region)
       (plot_stability_region find_plot_bounds p q N color filled plotroots
          alpha scalefac fignum)) /\
  B64.to_Q 1e-14%float = Some tiny.
Proof.
  assert (Hiff :
    In (Print msg_no_region)
      (plot_stability_region find_plot_bounds p q N color filled plotroots
         alpha scalefac fignum)
    <-> ~ unbounded_condition p q /\
        exists x : Q,
          In x (bounds_list (find_plot_bounds (stable p q) initial_guess)) /\
          Qabs x < tiny).
  { rewrite no_region_notice_in_trace, Qlt_bool_iff, min_abs_lt_iff.
    rewrite <- unbounded_test_iff, not_true_iff_false. reflexivity. }
  split; [exact Hiff|]. split; [|vm_compute; reflexivity].
  intros Hall Hin. apply Hiff in Hin. destruct Hin as [_ [x [Hx Hlt]]].
  apply (Qlt_not_le _ _ Hlt). now apply Hall.
Qed.

(** C4, as stated, fails: with [p(z) = z + 1], [q(z) = 1] and a search that
    returns [(-2, 0, -1, 1)] the bounded branch runs and the notice is
    printed, although three of the four bounds are far from zero. *)
Lemma no_region_notice_not_all_tiny :
  unbounded_test forward_euler one = false /\
  In (Print msg_no_region)
     (plot_stability_region search_returning_disk forward_euler one
        2 "r" true false 1 1 None) /\
  ~ (forall x : Q,
       In x (bounds_list
               (search_returning_disk (stable forward_euler one)
                  initial_guess)) ->
       Qabs x < tiny).
Proof.
  split; [reflexivity|]. split.
  - apply no_region_notice_in_trace. split; reflexivity.
  - intros H. specialize (H (-(2)) (or_introl eq_refl)). discriminate.
Qed.

(** ** The pole markers *)

Lemma not_in_log (log : list event) (e : event) :
  forallb (fun e => negb (is_drawing e)) log = true -> is_drawing e = true ->
  ~ In e log.
Proof.
  intros H He Hin. rewrite forallb_forall in H.
  specialize (H e Hin). rewrite He in H. discriminate.
Qed.

(** The pole markers are drawn exactly when [len(q) > 1], and [len] of a
    [poly1d] is its order. *)
Lemma poles_in_trace
    (find_plot_bounds : (C -> bool) -> bounds -> bounds)
    (p q : poly1d) (N : nat) (color : string) (filled plotroots : bool)
    (alpha scalefac : Q) (fignum : option Z) :
  In (PlotRootsOf q "xk")
     (plot_stability_region find_plot_bounds p q N color filled plotroots
        alpha scalefac fignum)
  <-> (1 < order q)%Z.
Proof.
  unfold plot_stability_region.
  assert (Hlog := select_bounds_log_not_drawing find_plot_bounds p q).
  destruct (select_bounds find_plot_bounds p q) as [bnds log].
  cbn [snd] in Hlog.
  assert (Hn := not_in_log log (PlotRootsOf q "xk") Hlog eq_refl).
  unfold len. rewrite Z.gtb_ltb.
  destruct (Z.ltb_spec 1 (order q)) as [Hq|Hq].
  - split; [auto|]. intros _. apply in_or_app. right.
    destruct filled, plotroots; simpl; auto 10.
  - split; [|lia]. intros Hin. exfalso.
    apply in_app_or in Hin. destruct Hin as [Hin|Hin]; [contradiction|].
    destruct filled, plotroots; simpl in Hin;
      repeat (destruct Hin as [Hin|Hin]; [discriminate|]); exact Hin.
Qed.

(** C5 fails on the code: for [q(z) = 1 - z], of degree exactly 1, the pole
    markers are not drawn, whatever the other arguments; they are drawn
    exactly when the degree of [q] is at least 2. *)
Theorem poles_skipped_at_degree_one
    (find_plot_bounds : (C -> bool) -> bounds -> bounds)
    (p : poly1d) (N : nat) (color : string) (filled plotroots : bool)
    (alpha scalefac : Q) (fignum : option Z) :
  order one_minus_z = 1%Z /\
  ~ In (PlotRootsOf one_minus_z "xk")
       (plot_stability_region find_plot_bounds p one_minus_z N color filled
          plotroots alpha scalefac fignum) /\
  (forall q : poly1d,
     In (PlotRootsOf q "xk")
        (plot_stability_region find_plot_bounds p q N color filled plotroots
           alpha scalefac fignum)
     <-> (2 <= order q)%Z).
Proof.
  split; [reflexivity|]. split.
  - rewrite poles_in_trace. cbn. lia.
  - intros q. rewrite poles_in_trace. lia.
Qed.

(** ** The stability predicate *)

(** C6, as amended: for [p(z) = 1] and [q(z) = 1 - z] the predicate
    [|p(z)/q(z)| <= 1] is true at [z = 0] and true at [z = 3], where the
    magnitude is 1/2. *)
Theorem stable_one_over_one_minus_z :
  stable one one_minus_z (0, 0) = true /\
  (exists s : Q,
     Cabs (Cdiv (polyvalC one (3, 0)) (polyvalC one_minus_z (3, 0))) = Sqrt s /\
     s == (1 # 2) * (1 # 2)) /\
  stable one one_minus_z (3, 0) = true.
Proof.
  split; [reflexivity|]. split; [|reflexivity].
  eexists. split; reflexivity.
Qed.

(** C6, as stated, fails: the predicate does not return false at [z = 3]. *)
Lemma stable_at_three_not_false :
  ~ (stable one one_minus_z (0, 0) = true /\
     stable one one_minus_z (3, 0) = false).
Proof.
  intros [_ H]. vm_compute in H. discriminate.
Qed.

(** ** The magnitude field *)

Lemma Cis_zero_false_norm (b : C) :
  Cis_zero b = false -> ~ fst b * fst b + snd b * snd b == 0.
Proof.
  unfold Cis_zero. intros H E. apply andb_false_iff in H.
  assert (H1 : 0 <= fst b * fst b) by nra.
  assert (H2 : 0 <= snd b * snd b) by nra.
  assert (Hr : fst b * fst b == 0) by lra.
  assert (Hi : snd b * snd b == 0) by lra.
  destruct H as [H|H].
  - destruct (Qeq_bool (fst b) 0) eqn:B; [discriminate|].
    apply Qeq_bool_neq in B. apply B.
    apply Qmult_integral in Hr. tauto.
  - destruct (Qeq_bool (snd b) 0) eqn:B; [discriminate|].
    apply Qeq_bool_neq in B. apply B.
    apply Qmult_integral in Hi. tauto.
Qed.

(** Where the divisor is not zero the quotient times the divisor is the
    dividend. *)
Lemma Cdiv_correct (a b : C) :
  Cis_zero b = false ->
  exists w : C, Cdiv a b = Some w /\ Ceq (Cmul w b) a.
Proof.
  intros H. unfold Cdiv. rewrite H. eexists. split; [reflexivity|].
  apply Cis_zero_false_norm in H.
  unfold Ceq, Cmul. cbn [fst snd]. split; field; exact H.
Qed.

(** ** Binomial sums *)

Lemma binom_gt (n m : nat) : (n < m)%nat -> binom n m = 0%Z.
Proof.
  revert m. induction n as [|n IH]; intros m H.
  - destruct m; [lia|reflexivity].
  - destruct m as [|m]; [lia|]. cbn [binom].
    rewrite !IH by lia. reflexivity.
Qed.

Lemma binom_S (n m : nat) :
  binom (S n) (S m) = (binom n m + binom n (S m))%Z.
Proof. reflexivity. Qed.

Lemma binom_0_r (n : nat) : binom n 0 = 1%Z.
Proof. now destruct n. Qed.

Lemma binom_absorb (n m : nat) :
  (binom n (S m) * Z.of_nat (S m) = binom n m * (Z.of_nat n - Z.of_nat m))%Z.
Proof.
  revert m. induction n as [|n IH]; intros m.
  - destruct m; cbn [binom]; lia.
  - rewrite binom_S. destruct m as [|m].
    + rewrite !binom_0_r. specialize (IH 0%nat). rewrite binom_0_r in IH. lia.
    + rewrite binom_S.
      assert (H1 := IH m). assert (H2 := IH (S m)). nia.
Qed.

Lemma binom_fact (n m : nat) :
  (m <= n)%nat ->
  (binom n m * Z.of_nat (fact m) * Z.of_nat (fact (n - m))
   = Z.of_nat (fact n))%Z.
Proof.
  revert n. induction m as [|m IH]; intros n H.
  - rewrite binom_0_r, Nat.sub_0_r. cbn [fact]. lia.
  - assert (Ha := binom_absorb n m).
    assert (Hm := IH n ltac:(lia)).
    replace (n - m)%nat with (S (n - S m)) in Hm by lia.
    change (fact (S m)) with (S m * fact m)%nat.
    change (fact (S (n - S m))) with (S (n - S m) * fact (n - S m))%nat in Hm.
    rewrite Nat2Z.inj_mul in Hm. rewrite Nat2Z.inj_mul.
    replace (Z.of_nat (S (n - S m))) with (Z.of_nat n - Z.of_nat m)%Z in Hm
      by lia.
    rewrite <- Hm.
    transitivity
      (binom n (S m) * Z.of_nat (S m) * Z.of_nat (fact m)
       * Z.of_nat (fact (n - S m)))%Z; [ring|].
    rewrite Ha. ring.
Qed.

Lemma zsum_ext (f g : nat -> Z) (n : nat) :
  (forall i : nat, (i < n)%nat -> f i = g i) -> zsum f n = zsum g n.
Proof.
  intros H. induction n as [|n IH]; [reflexivity|].
  cbn [zsum]. rewrite IH, H by auto with arith. reflexivity.
Qed.

Lemma zsum_first (f : nat -> Z) (n : nat) :
  zsum f (S n) = (f 0%nat + zsum (fun i => f (S i)) n)%Z.
Proof.
  induction n as [|n IH]; [cbn; lia|].
  change (zsum f (S (S n))) with (zsum f (S n) + f (S n))%Z.
  rewrite IH. cbn [zsum]. lia.
Qed.

Lemma zsum_plus (f g : nat -> Z) (n : nat) :
  zsum (fun i => (f i + g i)%Z) n = (zsum f n + zsum g n)%Z.
Proof.
  induction n as [|n IH]; [reflexivity|]. cbn [zsum]. rewrite IH. lia.
Qed.

Lemma zsum_opp (f : nat -> Z) (n : nat) :
  zsum (fun i => (- f i)%Z) n = (- zsum f n)%Z.
Proof.
  induction n as [|n IH]; [reflexivity|]. cbn [zsum]. rewrite IH. lia.
Qed.

Lemma zsum_zero (f : nat -> Z) (n : nat) :
  (forall i : nat, (i < n)%nat -> f i = 0%Z) -> zsum f n = 0%Z.
Proof.
  intros H. induction n as [|n IH]; [reflexivity|].
  cbn [zsum]. rewrite IH, H by auto with arith. reflexivity.
Qed.

Lemma sgn_S (n : nat) : sgn (S n) = (- sgn n)%Z.
Proof.
  unfold sgn. rewrite Nat.even_succ, <- Nat.negb_even.
  now destruct (Nat.even n).
Qed.

(** The alternating sum behind the Pade conditions:
    [sum_(n<=m) (-1)^n C(j,n) C(N-n,m-n) = C(N-j,m)]. *)
Lemma alternating_binomial_sum (j N m : nat) :
  (j <= N)%nat -> (m <= N)%nat ->
  zsum (fun n => (sgn n * binom j n * binom (N - n) (m - n))%Z) (S m)
  = binom (N - j) m.
Proof.
  revert N m. induction j as [|j IH]; intros N m Hj Hm.
  - rewrite zsum_first, zsum_zero.
    + rewrite !Nat.sub_0_r. cbn. destruct (binom N m); reflexivity.
    + intros i _. cbn [binom]. lia.
  - destruct m as [|m].
    + cbn. rewrite !binom_0_r. reflexivity.
    + rewrite zsum_first.
      rewrite (zsum_ext _
        (fun i => (sgn (S i) * binom j (S i) * binom (N - S i) (S m - S i)
                   + - (sgn i * binom j i * binom (N - 1 - i) (m - i)))%Z)).
      2:{ intros i _. rewrite binom_S, sgn_S.
          replace (N - S i)%nat with (N - 1 - i)%nat by lia.
          cbn [Nat.sub]. ring. }
      rewrite zsum_plus, zsum_opp.
      assert (H1 := IH N (S m) ltac:(lia) ltac:(lia)).
      rewrite zsum_first in H1.
      assert (H2 := IH (N - 1)%nat m ltac:(lia) ltac:(lia)).
      rewrite H2.
      replace (N - j)%nat with (S (N - S j)) in H1 by lia.
      rewrite binom_S in H1.
      replace (N - 1 - j)%nat with (N - S j)%nat by lia.
      rewrite !binom_0_r in *. cbn [sgn Nat.even] in *.
      rewrite !Nat.sub_0_r in *. lia.
Qed.

(** ** Sums of rationals and quotients of power series *)

Lemma qsum_ext (f g : nat -> Q) (n : nat) :
  (forall i : nat, (i < n)%nat -> f i == g i) -> qsum f n == qsum g n.
Proof.
  intros H. induction n as [|n IH]; [reflexivity|].
  cbn [qsum]. rewrite IH, H by auto with arith. reflexivity.
Qed.

Lemma qsum_first (f : nat -> Q) (n : nat) :
  qsum f (S n) == f 0%nat + qsum (fun i => f (S i)) n.
Proof.
  induction n as [|n IH]; [cbn; ring|].
  change (qsum f (S (S n))) with (qsum f (S n) + f (S n)).
  rewrite IH. cbn [qsum]. ring.
Qed.

Lemma qsum_scale_inject (t : nat -> Z) (c : Q) (n : nat) :
  qsum (fun i => inject_Z (t i) * c) n == inject_Z (zsum t n) * c.
Proof.
  induction n as [|n IH]; [cbn; ring|].
  cbn [qsum zsum]. rewrite IH, inject_Z_plus. ring.
Qed.

Lemma conv_qsum (q : nat -> Q) (n0 : nat) (cs : list Q) :
  conv q n0 cs
  == qsum (fun i => q (n0 + i)%nat * nth i cs 0) (List.length cs).
Proof.
  revert n0. induction cs as [|c t IH]; intros n0; [reflexivity|].
  cbn [conv List.length]. rewrite qsum_first, IH.
  cbn [nth]. rewrite Nat.add_0_r.
  apply Qplus_comp; [reflexivity|].
  apply qsum_ext. intros i _. now rewrite Nat.add_succ_r.
Qed.

Lemma quotient_coeffs_length (p q : nat -> Q) (n : nat) :
  List.length (quotient_coeffs p q n) = n.
Proof.
  induction n as [|n IH]; [reflexivity|]. cbn. now rewrite IH.
Qed.

(** The coefficients computed by [quotient_coeffs] satisfy the product
    rule: [q * (p/q) = p], coefficient by coefficient. *)
Lemma quotient_coeffs_product (p q : nat -> Q) (m : nat) :
  ~ q 0%nat == 0 ->
  conv q 0 (quotient_coeffs p q (S m)) == p m.
Proof.
  intros H. cbn [quotient_coeffs conv]. field. exact H.
Qed.

(** If the product of the series [q] and [c] agrees with [p] through order
    [M], then the Taylor coefficients of [p/q] are those of [c] through
    order [M]. *)
Lemma quotient_coeffs_agree (p q c : nat -> Q) (M : nat) :
  ~ q 0%nat == 0 ->
  (forall m : nat, (m <= M)%nat ->
     qsum (fun n => q n * c (m - n)%nat) (S m) == p m) ->
  forall m i : nat, (m <= M)%nat -> (i <= m)%nat ->
    nth i (quotient_coeffs p q (S m)) 0 == c (m - i)%nat.
Proof.
  intros Hq Hprod. induction m as [|m IH]; intros i Hm Hi.
  - assert (i = 0%nat) by lia. subst i.
    assert (H0 := Hprod 0%nat Hm). cbn in H0. cbn.
    rewrite <- H0. field. exact Hq.
  - destruct i as [|i].
    + change (quotient_coeffs p q (S (S m)))
        with (((p (S m) - conv q 1 (quotient_coeffs p q (S m))) / q 0%nat)
              :: quotient_coeffs p q (S m)).
      cbn [nth]. rewrite conv_qsum, quotient_coeffs_length.
      rewrite (qsum_ext _ (fun i => q (S i) * c (m - i)%nat)).
      2:{ intros i Hi'. cbn [Nat.add]. rewrite IH by lia. reflexivity. }
      assert (HS := Hprod (S m) Hm). rewrite qsum_first in HS.
      cbn [Nat.sub] in HS. rewrite <- HS. rewrite Nat.sub_0_r.
      field. exact Hq.
    + change (quotient_coeffs p q (S (S m)))
        with (((p (S m) - conv q 1 (quotient_coeffs p q (S m))) / q 0%nat)
              :: quotient_coeffs p q (S m)).
      cbn [nth Nat.sub]. apply IH; lia.
Qed.

(** ** Closed forms of the Pade coefficients *)

Lemma factorial_nonzero (n : nat) : ~ factorial n == 0.
Proof.
  intros E. assert (H := factorial_pos n). rewrite E in H. discriminate.
Qed.

Lemma inject_nat_nonzero (n : nat) :
  (0 < n)%nat -> ~ inject_Z (Z.of_nat n) == 0.
Proof.
  intros H E. unfold Qeq, inject_Z in E. simpl in E. lia.
Qed.

Ltac solve_nonzero :=
  first [ apply factorial_nonzero | apply inject_nat_nonzero; lia ].

Lemma float_succ_as_nat (a : Z) (n d : nat) :
  (a - Z.of_nat (S n) + 1 = Z.of_nat d)%Z ->
  float_of_int (a - Z.of_nat (S n)) + 1 == inject_Z (Z.of_nat d).
Proof.
  intros H. unfold float_of_int. change 1 with (inject_Z 1).
  rewrite <- inject_Z_plus, H. reflexivity.
Qed.

Lemma binom_absorb_Q (k n : nat) :
  (n <= k)%nat ->
  inject_Z (binom k (S n))
  == inject_Z (binom k n) * inject_Z (Z.of_nat (k - n))
     / inject_Z (Z.of_nat (S n)).
Proof.
  intros H. assert (Ha := binom_absorb k n).
  replace (Z.of_nat k - Z.of_nat n)%Z with (Z.of_nat (k - n)) in Ha by lia.
  rewrite <- inject_Z_mult, <- Ha, inject_Z_mult.
  field. apply inject_nat_nonzero. lia.
Qed.

Lemma pcoef_closed (k j n : nat) :
  (n <= k)%nat ->
  pcoef (Z.of_nat k) (Z.of_nat j) n
  == inject_Z (binom k n) * factorial (k + j - n) / factorial (k + j).
Proof.
  intros Hn. induction n as [|n IH].
  - rewrite binom_0_r, Nat.sub_0_r. cbn [pcoef].
    field. apply factorial_nonzero.
  - cbn [pcoef]. rewrite IH by lia.
    rewrite (float_succ_as_nat (Z.of_nat k) n (k - n)) by lia.
    rewrite (float_succ_as_nat (Z.of_nat j + Z.of_nat k) n (k + j - n)) by lia.
    unfold float_of_int.
    replace (k + j - n)%nat with (S (k + j - S n)) at 1 by lia.
    rewrite factorial_S. unfold float_of_int.
    replace (S (k + j - S n)) with (k + j - n)%nat by lia.
    rewrite (binom_absorb_Q k n) by lia.
    field. repeat split; solve_nonzero.
Qed.

Lemma minus_one_pow_sgn (n : nat) : (-1) ^ Z.of_nat n == inject_Z (sgn n).
Proof.
  induction n as [|n IH]; [reflexivity|].
  rewrite minus_one_pow_S, IH, sgn_S, inject_Z_opp. ring.
Qed.

Lemma P_getitem_closed (k j m : nat) :
  (m <= k + j)%nat ->
  getitem (mk_poly1d (descending (pcoef (Z.of_nat k) (Z.of_nat j)) k)
             (Z.of_nat k)) (Z.of_nat m)
  == inject_Z (binom k m) * factorial (k + j - m) / factorial (k + j).
Proof.
  intros Hm. destruct (le_lt_dec m k) as [H|H].
  - rewrite getitem_descending by assumption. now apply pcoef_closed.
  - rewrite getitem_above by (cbn [order]; lia).
    rewrite binom_gt by assumption. change (inject_Z 0) with 0.
    unfold Qdiv. ring.
Qed.

Lemma Q_getitem_closed (k j n : nat) :
  (n <= k + j)%nat ->
  getitem (mk_poly1d (descending (qcoef (Z.of_nat k) (Z.of_nat j)) j)
             (Z.of_nat j)) (Z.of_nat n)
  == inject_Z (sgn n * binom j n) * factorial (k + j - n) / factorial (k + j).
Proof.
  intros Hn. destruct (le_lt_dec n j) as [H|H].
  - rewrite getitem_descending by assumption.
    rewrite qcoef_pcoef, pcoef_closed by assumption.
    rewrite minus_one_pow_sgn, inject_Z_mult, (Nat.add_comm j k).
    unfold Qdiv. ring.
  - rewrite getitem_above by (cbn [order]; lia).
    rewrite binom_gt by assumption. rewrite Z.mul_0_r.
    change (inject_Z 0) with 0. unfold Qdiv. ring.
Qed.

(** The Pade conditions: the product of the denominator with the series of
    [exp] agrees with the numerator through order [k + j]. *)
Lemma pade_product (k j m : nat) :
  (m <= k + j)%nat ->
  qsum (fun n =>
          getitem (mk_poly1d (descending (qcoef (Z.of_nat k) (Z.of_nat j)) j)
                     (Z.of_nat j)) (Z.of_nat n)
          * exp_coeff (m - n)) (S m)
  == getitem (mk_poly1d (descending (pcoef (Z.of_nat k) (Z.of_nat j)) k)
                (Z.of_nat k)) (Z.of_nat m).
Proof.
  intros Hm.
  rewrite (qsum_ext _
    (fun n => inject_Z (sgn n * binom j n * binom (k + j - n) (m - n))
              * (factorial (k + j - m) / factorial (k + j)))).
  - rewrite qsum_scale_inject, alternating_binomial_sum by lia.
    rewrite P_getitem_closed by assumption.
    replace (k + j - j)%nat with k by lia. unfold Qdiv. ring.
  - intros n Hn. rewrite Q_getitem_closed by lia. unfold exp_coeff.
    assert (Hf := binom_fact (k + j - n) (m - n) ltac:(lia)).
    replace (k + j - n - (m - n))%nat with (k + j - m)%nat in Hf by lia.
    assert (HF : factorial (k + j - n)
                 == inject_Z (binom (k + j - n) (m - n)) * factorial (m - n)
                    * factorial (k + j - m)).
    { unfold factorial. rewrite <- !inject_Z_mult, Hf. reflexivity. }
    rewrite HF, (inject_Z_mult (sgn n * binom j n)).
    field. repeat split; solve_nonzero.
Qed.

(** Over the rationals, without rounding: for non-negative [k] and [j],
    the Taylor expansion about 0 of
    [P(z)/Q(z)], for the two polynomials returned by [pade_exp(k, j)],
    agrees with that of [exp(z)] in every term of degree at most [k + j]. *)
Theorem pade_exp_taylor_agreement (k j : Z) :
  (0 <= k)%Z -> (0 <= j)%Z ->
  exists P Qd : poly1d,
    pade_exp k j = Some (P, Qd) /\
    ~ getitem Qd 0 == 0 /\
    (forall m : nat,
       conv (fun i => getitem Qd (Z.of_nat i)) 0
            (quotient_coeffs (fun i => getitem P (Z.of_nat i))
                             (fun i => getitem Qd (Z.of_nat i)) (S m))
       == getitem P (Z.of_nat m)) /\
    (forall m : nat, (Z.of_nat m <= k + j)%Z ->
       taylor_coeff P Qd m == exp_coeff m).
Proof.
  intros Hk Hj. do 2 eexists.
  split; [apply pade_exp_closed; assumption|].
  rewrite <- (Z2Nat.id k Hk), <- (Z2Nat.id j Hj), !Nat2Z.id.
  set (k' := Z.to_nat k). set (j' := Z.to_nat j).
  assert (H0 : ~ getitem
                   (mk_poly1d (descending (qcoef (Z.of_nat k') (Z.of_nat j')) j')
                      (Z.of_nat j')) (Z.of_nat 0) == 0).
  { rewrite getitem_descending by lia. discriminate. }
  split; [exact H0|]. split.
  - intros m. now apply quotient_coeffs_product.
  - intros m Hm. unfold taylor_coeff.
    assert (H := quotient_coeffs_agree
                   (fun i => getitem
                      (mk_poly1d (descending (pcoef (Z.of_nat k') (Z.of_nat j')) k')
                         (Z.of_nat k')) (Z.of_nat i))
                   (fun i => getitem
                      (mk_poly1d (descending (qcoef (Z.of_nat k') (Z.of_nat j')) j')
                         (Z.of_nat j')) (Z.of_nat i))
                   exp_coeff (k' + j') H0).
    specialize (H (fun m Hm => pade_product k' j' m Hm) m 0%nat).
    rewrite Nat.sub_0_r in H. rewrite <- H by lia.
    now destruct (quotient_coeffs _ _ (S m)).
Qed.

Lemma pade_exp_taylor_agreement_witness :
  exists P Qd : poly1d,
    pade_exp 2 1 = Some (P, Qd) /\
    ~ getitem Qd 0 == 0 /\
    (forall m : nat,
       conv (fun i => getitem Qd (Z.of_nat i)) 0
            (quotient_coeffs (fun i => getitem P (Z.of_nat i))
                             (fun i => getitem Qd (Z.of_nat i)) (S m))
       == getitem P (Z.of_nat m)) /\
    (forall m : nat, (Z.of_nat m <= 2 + 1)%Z ->
       taylor_coeff P Qd m == exp_coeff m).
Proof.
  apply (pade_exp_taylor_agreement 2 1); lia.
Defined.

(** The agreement stops there: the [(1, 1)] approximant
    [(1 + z/2)/(1 - z/2)] has [1/4], not [1/6], at degree 3. *)
Example pade_1_1_degree_3 :
  exists c : Q,
    option_map (fun PQ => taylor_coeff (fst PQ) (snd PQ) 3) (pade_exp 1 1)
    = Some c /\ c == 1 # 4 /\ ~ c == exp_coeff 3.
Proof.
  eexists. split; [vm_compute; reflexivity|]. split; [reflexivity|].
  discriminate.
Qed.

(** ** Further checks of the model on concrete inputs *)

(** [pade_exp(0, 0)] is [P = 1], [Q = 1]. *)
Example pade_exp_0_0 : pade_exp 0 0 = Some (one, one).
Proof. reflexivity. Qed.

(** [pade_exp(2, 2)]: [P = z^2/12 + z/2 + 1], [Q = z^2/12 - z/2 + 1]. *)
Example pade_exp_2_2 :
  exists P Qd : poly1d,
    pade_exp 2 2 = Some (P, Qd) /\
    Forall2 Qeq (coeffs P) [1 # 12; 1 # 2; 1] /\
    Forall2 Qeq (coeffs Qd) [1 # 12; - (1 # 2); 1].
Proof.
  do 2 eexists. split; [vm_compute; reflexivity|].
  split; repeat constructor.
Qed.

(** Outside the non-negative integers a division can raise: in
    [pade_exp(-1, 1)] the divisor [j+k-n+1.] is zero at [n = 1]. *)
Example pade_exp_negative_raises : pade_exp (-1) 1 = None.
Proof. reflexivity. Qed.

(** A [poly1d] built from coefficients with leading zeros has the lower
    order. *)
Example make_trims_leading_zeros :
  make [0; 0; 3; 1] = mk_poly1d [3; 1] 1 /\ make [] = mk_poly1d [0] 0 /\
  make [0; 0] = mk_poly1d [0] 0.
Proof. repeat split. Qed.

(** The pole [z = 1] of [1/(1 - z)] is a cell with an infinite or undefined
    value and is not in the stability region; [z = 1/2] is not either. *)
Example stable_fails_at_pole :
  magnitude_cell one one_minus_z 1 (1, 0) = InfOrNan /\
  stable one one_minus_z (1, 0) = false /\
  stable one one_minus_z (1 # 2, 0) = false.
Proof. repeat split. Qed.

(** The forward Euler region is the unit disk around -1. *)
Example forward_euler_region :
  stable forward_euler one (-(2), 0) = true /\
  stable forward_euler one (-(1), 1) = true /\
  stable forward_euler one (1 # 10, 0) = false /\
  unbounded_test forward_euler one = false /\
  unbounded_test one one_minus_z = true.
Proof. repeat split. Qed.

(** ** The grid of a call *)

Lemma linspace_length (a b : Q) (N : nat) :
  List.length (linspace a b N) = N.
Proof.
  destruct N as [|[|N]]; [reflexivity|reflexivity|].
  unfold linspace. now rewrite length_map, length_seq.
Qed.

Lemma grid_shape (x y : list Q) (N : nat) :
  List.length x = N -> List.length y = N ->
  List.length (grid (tile_rows x N) (tile_cols y N)) = N /\
  Forall (fun row => List.length row = N)
         (grid (tile_rows x N) (tile_cols y N)).
Proof.
  intros Hx Hy. unfold grid, tile_rows, tile_cols. split.
  - rewrite length_map, length_combine, repeat_length, length_map, Hy.
    apply Nat.min_id.
  - apply Forall_forall. intros row Hin.
    apply in_map_iff in Hin. destruct Hin as [[r1 r2] [<- Hin]].
    cbn [fst snd]. unfold C. rewrite length_combine.
    assert (H1 := in_combine_l _ _ _ _ Hin).
    assert (H2 := in_combine_r _ _ _ _ Hin).
    apply repeat_spec in H1. apply in_map_iff in H2.
    destruct H2 as [yi [<- _]]. subst r1.
    rewrite repeat_length, Hx. apply Nat.min_id.
Qed.

(** The field handed to the contour plot is the magnitude field of the
    grid over the bounds settled on. *)
Lemma plot_draws_magnitude_field
    (find_plot_bounds : (C -> bool) -> bounds -> bounds)
    (p q : poly1d) (N : nat) (color : string) (plotroots : bool)
    (alpha scalefac : Q) (fignum : option Z) :
  In (Contourf
        (tile_rows (linspace (bounds_get (fst (select_bounds find_plot_bounds p q)) 0)
                             (bounds_get (fst (select_bounds find_plot_bounds p q)) 1) N) N)
        (tile_cols (linspace (bounds_get (fst (select_bounds find_plot_bounds p q)) 2)
                             (bounds_get (fst (select_bounds find_plot_bounds p q)) 3) N) N)
        (magnitude_field p q scalefac
           (grid
              (tile_rows (linspace (bounds_get (fst (select_bounds find_plot_bounds p q)) 0)
                                   (bounds_get (fst (select_bounds find_plot_bounds p q)) 1) N) N)
              (tile_cols (linspace (bounds_get (fst (select_bounds find_plot_bounds p q)) 2)
                                   (bounds_get (fst (select_bounds find_plot_bounds p q)) 3) N) N)))
        [0; 1] color alpha)
     (plot_stability_region find_plot_bounds p q N color true plotroots
        alpha scalefac fignum).
Proof.
  unfold plot_stability_region.
  destruct (select_bounds find_plot_bounds p q) as [bnds log]. cbn [fst].
  apply in_or_app. right. right. right. now left.
Qed.

(** * Further properties of the code *)

(** ** The stability predicate without the division *)

Lemma Cnorm2_Cdiv (a b w : C) :
  Cdiv a b = Some w -> Cnorm2 w == Cnorm2 a / Cnorm2 b /\ 0 < Cnorm2 b.
Proof.
  unfold Cdiv. destruct (Cis_zero b) eqn:Hb; [discriminate|].
  intros E. injection E as <-.
  assert (Hn := Cis_zero_false_norm b Hb).
  assert (Hpos : 0 < Cnorm2 b).
  { unfold Cnorm2. assert (0 <= fst b * fst b) by nra.
    assert (0 <= snd b * snd b) by nra.
    destruct (Qlt_le_dec 0 (fst b * fst b + snd b * snd b)) as [L|L];
      [exact L|]. exfalso. apply Hn. lra. }
  split; [|exact Hpos]. unfold Cnorm2. cbn [fst snd]. field. exact Hn.
Qed.

Lemma stable_norms (p q : poly1d) (z : C) :
  stable p q z = true <->
  Cis_zero (polyvalC q z) = false /\
  Cnorm2 (polyvalC p z) <= Cnorm2 (polyvalC q z).
Proof.
  unfold stable.
  destruct (Cdiv (polyvalC p z) (polyvalC q z)) as [w|] eqn:E.
  - assert (Hz : Cis_zero (polyvalC q z) = false).
    { unfold Cdiv in E. destruct (Cis_zero (polyvalC q z)); [discriminate|].
      reflexivity. }
    destruct (Cnorm2_Cdiv _ _ _ E) as [Hw Hb].
    destruct w as [re im]. cbn [Cabs mag_le].
    change (re * re + im * im) with (Cnorm2 (re, im)).
    rewrite andb_true_iff, !Qle_bool_iff, Hw.
    split.
    + intros [_ H]. split; [exact Hz|].
      apply (Qmult_le_r _ _ (/ Cnorm2 (polyvalC q z)));
        [now apply Qinv_lt_0_compat|].
      rewrite Qmult_inv_r by (intros E0; rewrite E0 in Hb; discriminate).
      exact H.
    + intros [_ H]. split; [discriminate|].
      apply (Qmult_le_r _ _ (/ Cnorm2 (polyvalC q z))) in H;
        [|now apply Qinv_lt_0_compat].
      rewrite Qmult_inv_r in H by (intros E0; rewrite E0 in Hb; discriminate).
      exact H.
  - unfold Cdiv in E. destruct (Cis_zero (polyvalC q z)); [|discriminate].
    cbn. split; [discriminate|]. intros [? _]. discriminate.
Qed.

(** Over the rationals, without rounding: [stable(z)] holds exactly when [z] is not a root of [q] and
    [|p(z)|^2 <= |q(z)|^2]. *)
Theorem stable_iff_norms (p q : poly1d) (z : C) :
  stable p q z = true <->
  Cis_zero (polyvalC q z) = false /\
  Cnorm2 (polyvalC p z) <= Cnorm2 (polyvalC q z).
Proof. exact (stable_norms p q z). Qed.

(** ** Evaluation at complex points *)

Lemma Cnorm2_Ceq (a b : C) : Ceq a b -> Cnorm2 a == Cnorm2 b.
Proof.
  intros [H1 H2]. unfold Cnorm2. now rewrite H1, H2.
Qed.

Lemma Cnorm2_Cconj (a : C) : Cnorm2 (Cconj a) == Cnorm2 a.
Proof.
  unfold Cnorm2, Cconj. cbn [fst snd]. ring.
Qed.

Lemma Cis_zero_Ceq (a b : C) : Ceq a b -> Cis_zero a = Cis_zero b.
Proof.
  intros [H1 H2]. unfold Cis_zero.
  assert (E1 : Qeq_bool (fst a) 0 = Qeq_bool (fst b) 0).
  { destruct (Qeq_bool (fst a) 0) eqn:A, (Qeq_bool (fst b) 0) eqn:B;
      try reflexivity.
    - apply Qeq_bool_eq in A. apply Qeq_bool_neq in B. rewrite H1 in A. tauto.
    - apply Qeq_bool_eq in B. apply Qeq_bool_neq in A. rewrite H1 in A. tauto. }
  assert (E2 : Qeq_bool (snd a) 0 = Qeq_bool (snd b) 0).
  { destruct (Qeq_bool (snd a) 0) eqn:A, (Qeq_bool (snd b) 0) eqn:B;
      try reflexivity.
    - apply Qeq_bool_eq in A. apply Qeq_bool_neq in B. rewrite H2 in A. tauto.
    - apply Qeq_bool_eq in B. apply Qeq_bool_neq in A. rewrite H2 in A. tauto. }
  now rewrite E1, E2.
Qed.

(** A polynomial with real coefficients commutes with conjugation. *)
Lemma horner_conj (l : list Q) (z a a' : C) :
  Ceq a' (Cconj a) ->
  Ceq (fold_left (fun y pv => Cadd (Cmul y (Cconj z)) (pv, 0)) l a')
      (Cconj (fold_left (fun y pv => Cadd (Cmul y z) (pv, 0)) l a)).
Proof.
  revert a a'. induction l as [|c t IH]; intros a a' H; [exact H|].
  cbn [fold_left]. apply IH. destruct H as [H1 H2].
  unfold Ceq, Cadd, Cmul, Cconj in *. cbn [fst snd] in *.
  rewrite H1, H2. split; ring.
Qed.

Lemma polyvalC_conj (p : poly1d) (z : C) :
  Ceq (polyvalC p (Cconj z)) (Cconj (polyvalC p z)).
Proof.
  unfold polyvalC. apply horner_conj. split; reflexivity.
Qed.

(** The complex counterpart of [horner_reflect]. *)
Lemma horner_reflect_C (f g : nat -> Q) (z : C) (n : nat) (y y' : C) :
  (forall i : nat, (i <= n)%nat -> g i == (-1) ^ Z.of_nat i * f i) ->
  Ceq y (Cscale y' ((-1) ^ Z.of_nat (S n))) ->
  Ceq (fold_left (fun a pv => Cadd (Cmul a z) (pv, 0)) (descending g n) y)
      (fold_left (fun a pv => Cadd (Cmul a (Cneg z)) (pv, 0))
         (descending f n) y').
Proof.
  revert y y'. induction n as [|n IH]; intros y y' H Hy.
  - unfold descending. cbn [seq rev map app fold_left].
    destruct Hy as [H1 H2]. assert (H0 := H 0%nat (Nat.le_refl 0)).
    unfold Ceq, Cadd, Cmul, Cneg, Cscale in *. cbn [fst snd] in *.
    rewrite H1, H2, H0. cbn. split; ring.
  - rewrite !descending_S. cbn [fold_left]. apply IH.
    + intros i Hi. apply H. lia.
    + destruct Hy as [H1 H2]. assert (HS := H (S n) (Nat.le_refl _)).
      unfold Ceq, Cadd, Cmul, Cneg, Cscale in *. cbn [fst snd] in *.
      rewrite H1, H2, HS. rewrite (minus_one_pow_S (S n)). split; ring.
Qed.

(** ** The approximants at complex points *)

Lemma pcoef_qcoef (k j : Z) (n : nat) :
  pcoef k j n == (-1) ^ Z.of_nat n * qcoef j k n.
Proof.
  rewrite qcoef_pcoef, Qmult_assoc, minus_one_pow_square. ring.
Qed.

Lemma pade_mirror (k j : Z) (z : C) :
  (0 <= k)%Z -> (0 <= j)%Z ->
  exists P Qd P' Qd' : poly1d,
    pade_exp k j = Some (P, Qd) /\
    pade_exp j k = Some (P', Qd') /\
    Ceq (polyvalC Qd z) (polyvalC P' (Cneg z)) /\
    Ceq (polyvalC P z) (polyvalC Qd' (Cneg z)).
Proof.
  intros Hk Hj. do 4 eexists.
  split; [apply pade_exp_closed; assumption|].
  split; [apply pade_exp_closed; assumption|].
  unfold polyvalC. cbn [coeffs]. split.
  - apply horner_reflect_C; [intros i _; apply qcoef_pcoef|].
    unfold Ceq, Cscale. cbn [fst snd]. split; ring.
  - apply horner_reflect_C; [intros i _; apply pcoef_qcoef|].
    unfold Ceq, Cscale. cbn [fst snd]. split; ring.
Qed.

(** X7: Exchanging the two degrees mirrors the two polynomials: for
    non-negative [k] and [j] and every complex [z],
    [Q_{k,j}(z) = P_{j,k}(-z)] and [P_{k,j}(z) = Q_{j,k}(-z)]. *)
Theorem pade_exp_mirror (k j : Z) (z : C) :
  (0 <= k)%Z -> (0 <= j)%Z ->
  exists P Qd P' Qd' : poly1d,
    pade_exp k j = Some (P, Qd) /\
    pade_exp j k = Some (P', Qd') /\
    Ceq (polyvalC Qd z) (polyvalC P' (Cneg z)) /\
    Ceq (polyvalC P z) (polyvalC Qd' (Cneg z)).
Proof. exact (pade_mirror k j z). Qed.

Lemma pade_exp_mirror_witness :
  exists P Qd P' Qd' : poly1d,
    pade_exp 3 1 = Some (P, Qd) /\
    pade_exp 1 3 = Some (P', Qd') /\
    Ceq (polyvalC Qd (1 # 2, 2)) (polyvalC P' (Cneg (1 # 2, 2))) /\
    Ceq (polyvalC P (1 # 2, 2)) (polyvalC Qd' (Cneg (1 # 2, 2))).
Proof.
  apply (pade_exp_mirror 3 1 (1 # 2, 2)); lia.
Defined.

(** Over the rationals, without rounding: for a diagonal approximant [pade_exp(k, k)] the numerator and the
    denominator have the same modulus on the imaginary axis: every point
    [iy] that is not a root of the denominator is in the stability
    region. *)
Theorem diagonal_pade_imaginary_axis (k : Z) (y : Q) :
  (0 <= k)%Z ->
  exists P Qd : poly1d,
    pade_exp k k = Some (P, Qd) /\
    Cnorm2 (polyvalC P (0, y)) == Cnorm2 (polyvalC Qd (0, y)) /\
    (stable P Qd (0, y) = true <-> Cis_zero (polyvalC Qd (0, y)) = false).
Proof.
  intros Hk.
  destruct (pade_mirror k k (0, y) Hk Hk)
    as [P [Qd [P' [Qd' [E [E' [HQ _]]]]]]].
  rewrite E in E'. injection E' as <- <-.
  exists P, Qd. split; [exact E|].
  assert (Hn : Cnorm2 (polyvalC P (0, y)) == Cnorm2 (polyvalC Qd (0, y))).
  { rewrite (Cnorm2_Ceq _ _ HQ).
    change (Cneg (0, y)) with (Cconj (0, y)).
    rewrite (Cnorm2_Ceq _ _ (polyvalC_conj P (0, y))).
    now rewrite Cnorm2_Cconj. }
  split; [exact Hn|].
  rewrite stable_norms. split; [tauto|].
  intros H. split; [exact H|]. rewrite Hn. apply Qle_refl.
Qed.

Lemma diagonal_pade_imaginary_axis_witness :
  exists P Qd : poly1d,
    pade_exp 2 2 = Some (P, Qd) /\
    Cnorm2 (polyvalC P (0, 5)) == Cnorm2 (polyvalC Qd (0, 5)) /\
    (stable P Qd (0, 5) = true <-> Cis_zero (polyvalC Qd (0, 5)) = false).
Proof.
  apply (diagonal_pade_imaginary_axis 2 5). lia.
Defined.

(** ** The softer notice *)

Lemma equal_leading_iff (p q : poly1d) :
  (order p =? order q)%Z
  && Qeq_bool (Qabs (getitem p (order p))) (Qabs (getitem q (order q))) = true
  <-> order p = order q /\
      Qabs (getitem p (order p)) == Qabs (getitem q (order q)).
Proof.
  rewrite andb_true_iff, Z.eqb_eq, Qeq_bool_iff. reflexivity.
Qed.

Lemma softer_notice
    (find_plot_bounds : (C -> bool) -> bounds -> bounds)
    (p q : poly1d) (N : nat) (color : string) (filled plotroots : bool)
    (alpha scalefac : Q) (fignum : option Z) :
  (In (Print msg_may_be_unbounded)
      (plot_stability_region find_plot_bounds p q N color filled plotroots
         alpha scalefac fignum)
   <-> order p = order q /\
       Qabs (getitem p (order p)) == Qabs (getitem q (order q))) /\
  (In (Print msg_may_be_unbounded)
      (plot_stability_region find_plot_bounds p q N color filled plotroots
         alpha scalefac fignum) ->
   In (FindPlotBounds initial_guess)
      (plot_stability_region find_plot_bounds p q N color filled plotroots
         alpha scalefac fignum) /\
   ~ In (Print msg_unbounded)
       (plot_stability_region find_plot_bounds p q N color filled plotroots
          alpha scalefac fignum)).
Proof.
  destruct (plot_trace_split find_plot_bounds p q N color filled plotroots
              alpha scalefac fignum) as [drawing [-> Hd]].
  assert (Hn1 := not_in_drawing drawing (Print msg_may_be_unbounded) Hd eq_refl).
  assert (Hn2 := not_in_drawing drawing (Print msg_unbounded) Hd eq_refl).
  rewrite <- equal_leading_iff.
  destruct (unbounded_test p q) eqn:E.
  - rewrite (select_bounds_unbounded find_plot_bounds p q E). cbn [snd].
    rewrite (unbounded_not_equal p q E).
    assert (Hno : ~ In (Print msg_may_be_unbounded)
                      ([Print msg_unbounded] ++ drawing)).
    { intros Hin. apply in_app_or in Hin.
      destruct Hin as [[Hin|[]]|Hin]; [discriminate|contradiction]. }
    split; [split; [tauto|discriminate]|tauto].
  - rewrite (select_bounds_bounded find_plot_bounds p q E). cbn [snd].
    destruct ((order p =? order q)%Z && Qeq_bool _ _) eqn:M.
    + split; [split; [reflexivity|]|].
      * intros _. apply in_or_app. left. right.
        apply in_or_app. right. now left.
      * intros _. split; [apply in_or_app; left; now left|].
        intros Hin. apply in_app_or in Hin.
        destruct Hin as [Hin|Hin]; [|contradiction].
        destruct Hin as [Hin|Hin]; [discriminate|].
        apply in_app_or in Hin. destruct Hin as [Hin|Hin].
        -- destruct (Qlt_bool _ _); [destruct Hin as [Hin|[]]|destruct Hin].
           discriminate.
        -- destruct Hin as [Hin|[]]. discriminate.
    + assert (Hno : ~ In (Print msg_may_be_unbounded)
          ((FindPlotBounds initial_guess
            :: (if Qlt_bool
                     (min_abs (find_plot_bounds (stable p q) initial_guess))
                     tiny
                then [Print msg_no_region] else []) ++ []) ++ drawing)).
      { intros Hin. apply in_app_or in Hin.
        destruct Hin as [Hin|Hin]; [|contradiction].
        destruct Hin as [Hin|Hin]; [discriminate|].
        rewrite app_nil_r in Hin.
        destruct (Qlt_bool _ _); [destruct Hin as [Hin|[]]|destruct Hin].
        discriminate. }
      split; [split; [tauto|discriminate]|tauto].
Qed.

(** X14: The notice that the region may be unbounded is printed exactly when the
    two degrees are equal and the two leading coefficients have the same
    magnitude; the bound search has then run, and the notice that the region
    is unbounded is not printed as well. *)
Theorem may_be_unbounded_notice
    (find_plot_bounds : (C -> bool) -> bounds -> bounds)
    (p q : poly1d) (N : nat) (color : string) (filled plotroots : bool)
    (alpha scalefac : Q) (fignum : option Z) :
  (In (Print msg_may_be_unbounded)
      (plot_stability_region find_plot_bounds p q N color filled plotroots
         alpha scalefac fignum)
   <-> order p = order q /\
       Qabs (getitem p (order p)) == Qabs (getitem q (order q))) /\
  (In (Print msg_may_be_unbounded)
      (plot_stability_region find_plot_bounds p q N color filled plotroots
         alpha scalefac fignum) ->
   In (FindPlotBounds initial_guess)
      (plot_stability_region find_plot_bounds p q N color filled plotroots
         alpha scalefac fignum) /\
   ~ In (Print msg_unbounded)
       (plot_stability_region find_plot_bounds p q N color filled plotroots
          alpha scalefac fignum)).
Proof.
  exact (softer_notice find_plot_bounds p q N color filled plotroots alpha
           scalefac fignum).
Qed.

(** ** The approximants in the renderer *)

Lemma Qabs_minus_one_pow (n : nat) (x : Q) :
  Qabs ((-1) ^ Z.of_nat n * x) == Qabs x.
Proof.
  rewrite Qabs_Qmult, minus_one_pow_sgn. unfold sgn.
  destruct (Nat.even n); cbn; ring.
Qed.

Lemma pade_leading_magnitudes (k : Z) :
  (0 <= k)%Z ->
  Qabs (qcoef k k (Z.to_nat k)) == Qabs (pcoef k k (Z.to_nat k)).
Proof.
  intros _. now rewrite qcoef_pcoef, Qabs_minus_one_pow.
Qed.

(** Over the rationals, without rounding: handed the pair returned by
    [pade_exp(k, j)], the renderer takes the
    unbounded branch exactly when [k < j], and prints that the region may be
    unbounded exactly when [k = j]: the two leading coefficients of a
    diagonal approximant have the same magnitude. *)
Theorem pade_exp_in_renderer
    (find_plot_bounds : (C -> bool) -> bounds -> bounds)
    (k j : Z) (N : nat) (color : string) (filled plotroots : bool)
    (alpha scalefac : Q) (fignum : option Z) :
  (0 <= k)%Z -> (0 <= j)%Z ->
  exists P Qd : poly1d,
    pade_exp k j = Some (P, Qd) /\
    unbounded_test P Qd = (k <? j)%Z /\
    (In (Print msg_may_be_unbounded)
        (plot_stability_region find_plot_bounds P Qd N color filled plotroots
           alpha scalefac fignum)
     <-> k = j).
Proof.
  intros Hk Hj. do 2 eexists.
  split; [apply pade_exp_closed; assumption|].
  assert (Hsame : k = j ->
    Qabs (getitem (mk_poly1d (descending (pcoef k j) (Z.to_nat k)) k) k)
    == Qabs (getitem (mk_poly1d (descending (qcoef k j) (Z.to_nat j)) j) j)).
  { intros <-. rewrite !getitem_descending_Z by lia.
    symmetry. now apply pade_leading_magnitudes. }
  split.
  - unfold unbounded_test. cbn [order].
    destruct (Z.ltb_spec k j) as [L|L]; [reflexivity|]. cbn [orb].
    destruct (Z.eqb_spec k j) as [E|E]; [|reflexivity]. cbn [andb].
    unfold Qlt_bool. apply negb_false_iff, Qle_bool_iff.
    rewrite (Hsame E). apply Qle_refl.
  - rewrite (proj1 (softer_notice find_plot_bounds _ _ N color
                      filled plotroots alpha scalefac fignum)).
    cbn [order]. split; [tauto|]. intros E. split; [exact E|]. now apply Hsame.
Qed.

Lemma pade_exp_in_renderer_witness :
  exists P Qd : poly1d,
    pade_exp 1 2 = Some (P, Qd) /\
    unbounded_test P Qd = (1 <? 2)%Z /\
    (In (Print msg_may_be_unbounded)
        (plot_stability_region search_returning_disk P Qd 3 "r" true false
           1 1 None)
     <-> 1%Z = 2%Z).
Proof.
  apply (pade_exp_in_renderer search_returning_disk 1 2); lia.
Defined.

(** ** When [pade_exp] raises *)

Section Loops.

Variable step : option (list Q) -> Z -> option (list Q).
Variable bad : Z -> Prop.
Hypothesis bad_dec : forall n : Z, {bad n} + {~ bad n}.
Hypothesis step_None : forall n : Z, step None n = None.
Hypothesis step_bad : forall (l : list Q) (n : Z), bad n -> step (Some l) n = None.
Hypothesis step_good :
  forall (l : list Q) (n : Z), ~ bad n -> exists l', step (Some l) n = Some l'.



End Loops.

Lemma in_range (a b n : Z) : In n (range a b) <-> (a <= n < b)%Z.
Proof.
  unfold range. rewrite in_map_iff. split.
  - intros [i [<- Hi]]. apply in_seq in Hi. lia.
  - intros H. exists (Z.to_nat (n - a)). split; [lia|].
    apply in_seq. lia.
Qed.










(** X2: For degrees that are both zero or negative the two loops do not run and
    [pade_exp] returns [P = 1], [Q = 1]. *)
Theorem pade_exp_nonpositive (k j : Z) :
  (k <= 0)%Z -> (j <= 0)%Z -> pade_exp k j = Some (make [1], make [1]).
Proof.
  intros Hk Hj. unfold pade_exp, Pcoeffs_loop, Qcoeffs_loop, range.
  replace (Z.to_nat (k + 1 - 1)) with 0%nat by lia.
  replace (Z.to_nat (j + 1 - 1)) with 0%nat by lia.
  reflexivity.
Qed.

Lemma pade_exp_nonpositive_witness :
  pade_exp (-4) 0 = Some (make [1], make [1]).
Proof.
  apply (pade_exp_nonpositive (-4) 0); lia.
Defined.

(** ** The coefficients in closed form *)

Lemma binom_as_factorials (k n : nat) :
  (n <= k)%nat ->
  inject_Z (binom k n) == factorial k / (factorial n * factorial (k - n)).
Proof.
  intros H. assert (Hf := binom_fact k n H).
  assert (HF : factorial k
               == inject_Z (binom k n) * factorial n * factorial (k - n)).
  { unfold factorial. rewrite <- !inject_Z_mult, Hf. reflexivity. }
  rewrite HF. field. split; apply factorial_nonzero.
Qed.

(** Over the rationals, without rounding: the recurrences of [pade_exp]
    compute the classical coefficients: for
    non-negative [k] and [j], the degree-[n] coefficient of [P] is
    [k! (k+j-n)! / ((k+j)! n! (k-n)!)] for [n <= k], and that of [Q] is
    [(-1)^n j! (k+j-n)! / ((k+j)! n! (j-n)!)] for [n <= j]. *)
Theorem pade_exp_closed_form (k j : nat) :
  exists P Qd : poly1d,
    pade_exp (Z.of_nat k) (Z.of_nat j) = Some (P, Qd) /\
    (forall n : nat, (n <= k)%nat ->
       getitem P (Z.of_nat n)
       == factorial k * factorial (k + j - n)
          / (factorial (k + j) * factorial n * factorial (k - n))) /\
    (forall n : nat, (n <= j)%nat ->
       getitem Qd (Z.of_nat n)
       == (-1) ^ Z.of_nat n * (factorial j * factorial (k + j - n))
          / (factorial (k + j) * factorial n * factorial (j - n))).
Proof.
  do 2 eexists. split; [apply pade_exp_closed; lia|].
  rewrite !Nat2Z.id. split.
  - intros n Hn. rewrite P_getitem_closed by lia.
    rewrite (binom_as_factorials k n Hn).
    field. repeat split; apply factorial_nonzero.
  - intros n Hn. rewrite Q_getitem_closed by lia.
    rewrite inject_Z_mult, <- minus_one_pow_sgn.
    rewrite (binom_as_factorials j n Hn).
    field. repeat split; apply factorial_nonzero.
Qed.

(** Over the rationals, without rounding: every coefficient of the
    numerator is positive, and the coefficients of
    the denominator alternate in sign, starting from [+1]. *)
Theorem pade_exp_signs (k j : nat) :
  exists P Qd : poly1d,
    pade_exp (Z.of_nat k) (Z.of_nat j) = Some (P, Qd) /\
    (forall n : nat, (n <= k)%nat -> 0 < getitem P (Z.of_nat n)) /\
    (forall n : nat, (n <= j)%nat ->
       0 < (-1) ^ Z.of_nat n * getitem Qd (Z.of_nat n)).
Proof.
  do 2 eexists. split; [apply pade_exp_closed; lia|].
  rewrite !Nat2Z.id. split.
  - intros n Hn. rewrite getitem_descending by assumption.
    apply pcoef_pos; lia.
  - intros n Hn. rewrite getitem_descending by assumption.
    rewrite qcoef_pcoef, Qmult_assoc, minus_one_pow_square, Qmult_1_l.
    apply pcoef_pos; lia.
Qed.

(** Over the rationals, without rounding: with a numerator of degree zero
    the approximant is [1/Q] with
    [Q(z) = sum_(n<=j) (-z)^n / n!]: the degree-[n] coefficient of the
    denominator of [pade_exp(0, j)] is [(-1)^n / n!], that is, [(-1)^n] times
    the coefficient of [taylor(j)]. *)
Theorem pade_exp_zero_numerator (j : nat) :
  exists Qd : poly1d,
    pade_exp 0 (Z.of_nat j) = Some (make [1], Qd) /\
    order Qd = Z.of_nat j /\
    (forall n : nat, (n <= j)%nat ->
       getitem Qd (Z.of_nat n)
       == (-1) ^ Z.of_nat n * getitem (taylor (Z.of_nat j)) (Z.of_nat n)).
Proof.
  eexists. split; [apply (pade_exp_closed 0 (Z.of_nat j)); lia|].
  split; [reflexivity|].
  intros n Hn. rewrite Nat2Z.id, getitem_descending by assumption.
  rewrite taylor_closed by lia. rewrite Nat2Z.id.
  rewrite getitem_descending by assumption.
  rewrite qcoef_pcoef, pcoef_j0 by lia. reflexivity.
Qed.

(** ** More on [taylor] *)

(** X10: For a negative order [np.arange(p+1)] is empty and [taylor] returns the
    zero polynomial, of order 0, whose value at 0 is 0 and not 1. *)
Theorem taylor_negative (p : Z) :
  (p < 0)%Z ->
  taylor p = mk_poly1d [0] 0 /\ polyval (taylor p) 0 == 0.
Proof.
  intros Hp. unfold taylor, arange.
  replace (Z.to_nat (p + 1)) with 0%nat by lia.
  split; reflexivity.
Qed.

Lemma taylor_negative_witness :
  taylor (-2) = mk_poly1d [0] 0 /\ polyval (taylor (-2)) 0 == 0.
Proof.
  apply (taylor_negative (-2)). lia.
Defined.

(** Over the rationals, without rounding: raising the order by one puts
    one new leading coefficient in front of
    the coefficients already there. *)
Theorem taylor_extends (p : Z) :
  (0 <= p)%Z ->
  coeffs (taylor (p + 1))
  = (1 / factorial (S (Z.to_nat p))) :: coeffs (taylor p).
Proof.
  intros Hp. rewrite !taylor_closed by lia. cbn [coeffs].
  replace (Z.to_nat (p + 1)) with (S (Z.to_nat p)) by lia.
  apply descending_S.
Qed.

Lemma taylor_extends_witness :
  coeffs (taylor (3 + 1))
  = (1 / factorial (S (Z.to_nat 3))) :: coeffs (taylor 3).
Proof.
  apply (taylor_extends 3). lia.
Defined.

Lemma Qpower_S (x : Q) (n : nat) :
  x ^ Z.of_nat (S n) == x * x ^ Z.of_nat n.
Proof.
  rewrite Nat2Z.inj_succ, <- Z.add_1_l.
  rewrite Qpower_plus' by lia. reflexivity.
Qed.

(** Horner's scheme over a coefficient list stored highest degree first
    computes the sum of the monomials. *)
Lemma horner_sum (f : nat -> Q) (x : Q) (n : nat) (y : Q) :
  fold_left (fun a pv => a * x + pv) (descending f n) y
  == y * x ^ Z.of_nat (S n) + qsum (fun i => f i * x ^ Z.of_nat i) (S n).
Proof.
  revert y. induction n as [|n IH]; intros y.
  - unfold descending. cbn. ring.
  - rewrite descending_S. cbn [fold_left]. rewrite IH.
    rewrite (Qpower_S x (S n)).
    change (qsum (fun i => f i * x ^ Z.of_nat i) (S (S n)))
      with (qsum (fun i => f i * x ^ Z.of_nat i) (S n)
            + f (S n) * x ^ Z.of_nat (S n)).
    ring.
Qed.

(** Over the rationals, without rounding: the value of [taylor(p)] at [x]
    is the partial sum
    [sum_(i<=p) x^i / i!] of the exponential series. *)
Theorem taylor_value (p : Z) (x : Q) :
  (0 <= p)%Z ->
  polyval (taylor p) x
  == qsum (fun i => x ^ Z.of_nat i / factorial i) (S (Z.to_nat p)).
Proof.
  intros Hp. rewrite taylor_closed by assumption.
  unfold polyval. cbn [coeffs]. rewrite horner_sum.
  rewrite Qmult_0_l, Qplus_0_l.
  apply qsum_ext. intros i _. unfold Qdiv. ring.
Qed.

Lemma taylor_value_witness :
  polyval (taylor 3) (1 # 2)
  == qsum (fun i => (1 # 2) ^ Z.of_nat i / factorial i) (S (Z.to_nat 3)).
Proof.
  apply (taylor_value 3 (1 # 2)). lia.
Defined.

(** ** The sample grid *)

Lemma nth_repeat_lt (A : Type) (a d : A) (N j : nat) :
  (j < N)%nat -> nth j (repeat a N) d = a.
Proof.
  revert j. induction N as [|N IH]; intros j H; [lia|].
  destruct j as [|j]; [reflexivity|]. cbn. apply IH. lia.
Qed.

Lemma grid_cell (x y : list Q) (N i j : nat) :
  List.length x = N -> List.length y = N -> (i < N)%nat -> (j < N)%nat ->
  nth j (nth i (grid (tile_rows x N) (tile_cols y N)) []) (0, 0)
  = (nth j x 0, nth i y 0).
Proof.
  intros Hx Hy Hi Hj. unfold grid, tile_rows, tile_cols.
  change (@nil C)
    with ((fun xy : list Q * list Q => combine (fst xy) (snd xy))
            ([], repeat 0 N)).
  rewrite map_nth.
  rewrite (combine_nth (repeat x N) (map (fun yi : Q => repeat yi N) y) i
             [] (repeat 0 N))
    by now rewrite repeat_length, length_map.
  cbn [fst snd]. rewrite nth_repeat_lt by assumption.
  change (repeat 0 N) with ((fun yi : Q => repeat yi N) 0).
  rewrite map_nth. unfold C.
  rewrite combine_nth by now rewrite repeat_length.
  now rewrite nth_repeat_lt.
Qed.

(** X15: Columns of the grid run along the real axis and rows along the
    imaginary axis: for [i, j < N] the point in row [i] and column [j] of
    [Z = X + Y*1j] is [x[j] + y[i]*1j], where [x] and [y] are the two
    arrays of [N] samples returned by [np.linspace]. *)
Theorem grid_layout (a b c d : Q) (N i j : nat) :
  (i < N)%nat -> (j < N)%nat ->
  nth j (nth i (grid (tile_rows (linspace a b N) N)
                     (tile_cols (linspace c d N) N)) []) (0, 0)
  = (nth j (linspace a b N) 0, nth i (linspace c d N) 0).
Proof.
  intros Hi Hj. apply grid_cell; try apply linspace_length; assumption.
Qed.

Lemma grid_layout_witness :
  nth 2 (nth 1 (grid (tile_rows (linspace (-(10)) 1 3) 3)
                     (tile_cols (linspace (-(5)) 5 3) 3)) []) (0, 0)
  = (nth 2 (linspace (-(10)) 1 3) 0, nth 1 (linspace (-(5)) 5 3) 0).
Proof.
  apply (grid_layout (-(10)) 1 (-(5)) 5 3 1 2); lia.
Defined.

(** X16: Whatever the bounds, the contour plot is handed three arrays of [N] rows
    of [N] cells: the two coordinate arrays and the magnitude field. *)
Theorem contour_arrays_shape
    (find_plot_bounds : (C -> bool) -> bounds -> bounds)
    (p q : poly1d) (N : nat) (color : string) (filled plotroots : bool)
    (alpha scalefac : Q) (fignum : option Z) :
  exists (X Y : list (list Q)) (R : list (list magnitude)),
    In (if filled then Contourf X Y R [0; 1] color alpha
        else Contour X Y R [0; 1] color alpha 3)
       (plot_stability_region find_plot_bounds p q N color filled plotroots
          alpha scalefac fignum) /\
    List.length X = N /\ Forall (fun row => List.length row = N) X /\
    List.length Y = N /\ Forall (fun row => List.length row = N) Y /\
    List.length R = N /\ Forall (fun row => List.length row = N) R.
Proof.
  unfold plot_stability_region.
  destruct (select_bounds find_plot_bounds p q) as [bnds log].
  set (x := linspace (bounds_get bnds 0) (bounds_get bnds 1) N).
  set (y := linspace (bounds_get bnds 2) (bounds_get bnds 3) N).
  assert (Hx : List.length x = N) by apply linspace_length.
  assert (Hy : List.length y = N) by apply linspace_length.
  destruct (grid_shape x y N Hx Hy) as [G1 G2].
  exists (tile_rows x N), (tile_cols y N),
    (magnitude_field p q scalefac (grid (tile_rows x N) (tile_cols y N))).
  split.
  { apply in_or_app. right. right. right. now left. }
  split; [apply repeat_length|]. split.
  { apply Forall_forall. intros row Hin. apply repeat_spec in Hin.
    rewrite Hin. exact Hx. }
  split; [unfold tile_cols; now rewrite length_map|]. split.
  { apply Forall_forall. intros row Hin. apply in_map_iff in Hin.
    destruct Hin as [yi [<- _]]. apply repeat_length. }
  split; [unfold magnitude_field; now rewrite length_map|].
  apply Forall_forall. intros row Hin. apply in_map_iff in Hin.
  destruct Hin as [zs [<- Hin]]. rewrite length_map.
  rewrite Forall_forall in G2. now apply G2.
Qed.

(** ** A constant numerator in the unbounded branch *)

Lemma linspace_0_0 (N : nat) : Forall (fun v => v == 0) (linspace 0 0 N).
Proof.
  destruct N as [|[|N]]; [constructor|repeat constructor|].
  unfold linspace. apply Forall_forall. intros v Hin.
  apply in_map_iff in Hin. destruct Hin as [i [<- _]].
  unfold Qdiv. ring.
Qed.

Lemma grid_of_zeros (x y : list Q) (N : nat) :
  Forall (fun v => v == 0) x -> Forall (fun v => v == 0) y ->
  Forall (Forall (fun z => Ceq z (0, 0)))
         (grid (tile_rows x N) (tile_cols y N)).
Proof.
  intros Hx Hy. rewrite Forall_forall in Hx, Hy.
  unfold grid, tile_rows, tile_cols.
  apply Forall_forall. intros row Hrow.
  apply in_map_iff in Hrow. destruct Hrow as [[r1 r2] [<- Hin]].
  assert (H1 := in_combine_l _ _ _ _ Hin).
  assert (H2 := in_combine_r _ _ _ _ Hin).
  apply repeat_spec in H1. apply in_map_iff in H2.
  destruct H2 as [yi [<- Hyi]]. rewrite H1. cbn [fst snd].
  apply Forall_forall. intros [u v] Huv.
  assert (Hu := in_combine_l _ _ _ _ Huv).
  assert (Hv := in_combine_r _ _ _ _ Huv).
  apply repeat_spec in Hv. subst v.
  split; cbn [fst snd]; auto.
Qed.

(** X17: When the numerator is a constant ([m = 0]) and the unbounded branch is
    taken, the rectangle [(-10m, m, -5m, 5m)] is [(0, 0, 0, 0)]: every point
    of the sample grid is the origin. *)
Theorem constant_numerator_rectangle
    (find_plot_bounds : (C -> bool) -> bounds -> bounds)
    (p q : poly1d) (N : nat) :
  order p = 0%Z -> unbounded_test p q = true ->
  fst (select_bounds find_plot_bounds p q) = (0, 0, 0, 0) /\
  Forall (Forall (fun z => Ceq z (0, 0)))
    (grid
       (tile_rows
          (linspace (bounds_get (fst (select_bounds find_plot_bounds p q)) 0)
                    (bounds_get (fst (select_bounds find_plot_bounds p q)) 1)
                    N) N)
       (tile_cols
          (linspace (bounds_get (fst (select_bounds find_plot_bounds p q)) 2)
                    (bounds_get (fst (select_bounds find_plot_bounds p q)) 3)
                    N) N)).
Proof.
  intros Hm Hu. rewrite (select_bounds_unbounded find_plot_bounds p q Hu).
  rewrite Hm. cbn [fst]. split; [reflexivity|].
  apply grid_of_zeros; apply linspace_0_0.
Qed.

Lemma constant_numerator_rectangle_witness :
  fst (select_bounds search_returning_disk one one_minus_z) = (0, 0, 0, 0) /\
  Forall (Forall (fun z => Ceq z (0, 0)))
    (grid
       (tile_rows
          (linspace
             (bounds_get (fst (select_bounds search_returning_disk one one_minus_z)) 0)
             (bounds_get (fst (select_bounds search_returning_disk one one_minus_z)) 1)
             4) 4)
       (tile_cols
          (linspace
             (bounds_get (fst (select_bounds search_returning_disk one one_minus_z)) 2)
             (bounds_get (fst (select_bounds search_returning_disk one one_minus_z)) 3)
             4) 4)).
Proof.
  apply (constant_numerator_rectangle search_returning_disk one one_minus_z 4);
    reflexivity.
Defined.

(** ** The order of the approximant is exactly [k + j] *)

Lemma qsum_plus (f g : nat -> Q) (n : nat) :
  qsum (fun i => f i + g i) n == qsum f n + qsum g n.
Proof.
  induction n as [|n IH]; [reflexivity|]. cbn [qsum]. rewrite IH. ring.
Qed.

Lemma qsum_scale (c : Q) (f : nat -> Q) (n : nat) :
  qsum (fun i => c * f i) n == c * qsum f n.
Proof.
  induction n as [|n IH]; [cbn; ring|]. cbn [qsum]. rewrite IH. ring.
Qed.

Lemma qsum_cut (f : nat -> Q) (a b : nat) :
  (a <= b)%nat ->
  (forall i : nat, (a <= i < b)%nat -> f i == 0) ->
  qsum f b == qsum f a.
Proof.
  intros Hab H. induction b as [|b IH].
  - now replace a with 0%nat by lia.
  - destruct (Nat.eq_dec a (S b)) as [->|Hne]; [reflexivity|].
    cbn [qsum]. rewrite IH, H by (try intros; try apply H; lia). ring.
Qed.

(** [sum_(n<=j) (-1)^n C(j,n) / (M-n) = (-1)^j j! (M-j-1)! / M!] for
    [j < M]. *)
Lemma alternating_reciprocal_sum (j M : nat) :
  (j < M)%nat ->
  qsum (fun n => inject_Z (sgn n * binom j n) / inject_Z (Z.of_nat (M - n)))
       (S j)
  == inject_Z (sgn j) * factorial j * factorial (M - j - 1) / factorial M.
Proof.
  revert M. induction j as [|j IH]; intros M HM.
  - cbn [qsum]. rewrite !Nat.sub_0_r.
    replace M with (S (M - 1)) at 1 3 by lia.
    rewrite factorial_S. unfold float_of_int.
    replace (S (M - 1)) with M by lia. cbn [sgn Nat.even binom].
    change (inject_Z (1 * 1)) with 1. change (inject_Z 1) with 1.
    change (factorial 0) with 1.
    field. split; [apply factorial_nonzero|apply inject_nat_nonzero; lia].
  - set (g := fun n => inject_Z (sgn n * binom j n)
                       / inject_Z (Z.of_nat (M - n))).
    set (h := fun n => match n with
                       | O => 0
                       | S i => - (inject_Z (sgn i * binom j i)
                                   / inject_Z (Z.of_nat (M - 1 - i)))
                       end).
    rewrite (qsum_ext _ (fun n => g n + h n)).
    2:{ intros n _. unfold g, h. destruct n as [|n].
        - rewrite !binom_0_r. ring.
        - rewrite binom_S, sgn_S.
          replace (M - S n)%nat with (M - 1 - n)%nat by lia.
          rewrite !Z.mul_add_distr_l, !inject_Z_plus, !Z.mul_opp_l,
            !inject_Z_opp.
          unfold Qdiv. ring. }
    rewrite qsum_plus.
    change (qsum g (S (S j))) with (qsum g (S j) + g (S j)).
    rewrite (qsum_first h). unfold h at 1.
    assert (Hg : g (S j) == 0).
    { unfold g. rewrite binom_gt by lia. rewrite Z.mul_0_r.
      change (inject_Z 0) with 0. unfold Qdiv. ring. }
    rewrite Hg. unfold g. rewrite (IH M) by lia.
    rewrite (qsum_ext (fun i => h (S i))
               (fun i => (-1) * (inject_Z (sgn i * binom j i)
                                 / inject_Z (Z.of_nat (M - 1 - i)))))
      by (intros i _; unfold h; ring).
    rewrite qsum_scale, (IH (M - 1)%nat) by lia.
    rewrite sgn_S, inject_Z_opp.
    assert (E1 : factorial (M - j - 1)
                 == inject_Z (Z.of_nat (M - j - 1)) * factorial (M - S j - 1)).
    { replace (M - j - 1)%nat with (S (M - S j - 1)) at 1 by lia.
      rewrite factorial_S. unfold float_of_int.
      now replace (S (M - S j - 1)) with (M - j - 1)%nat by lia. }
    assert (E2 : factorial M == inject_Z (Z.of_nat M) * factorial (M - 1)).
    { replace M with (S (M - 1)) at 1 by lia.
      rewrite factorial_S. unfold float_of_int.
      now replace (S (M - 1)) with M by lia. }
    assert (E3 := factorial_S j). unfold float_of_int in E3.
    replace (M - 1 - j - 1)%nat with (M - S j - 1)%nat by lia.
    assert (HZ : inject_Z (Z.of_nat (M - j - 1))
                 == inject_Z (Z.of_nat M) - inject_Z (Z.of_nat (S j))).
    { unfold Qminus. rewrite <- inject_Z_opp, <- inject_Z_plus.
      apply inject_Z_injective. lia. }
    rewrite E1, E2, E3.
    rewrite HZ. field.
    repeat split; first [apply factorial_nonzero|apply inject_nat_nonzero; lia].
Qed.

(** The coefficient that follows the agreeing ones: if the product of [q]
    and [c] agrees with [p] through order [M], the next Taylor coefficient
    of [p/q] is [c (M+1)] plus the defect of the product there. *)
Lemma quotient_coeffs_next (p q c : nat -> Q) (M : nat) :
  ~ q 0%nat == 0 ->
  (forall m : nat, (m <= M)%nat ->
     qsum (fun n => q n * c (m - n)%nat) (S m) == p m) ->
  hd 0 (quotient_coeffs p q (S (S M)))
  == c (S M)
     + (p (S M) - qsum (fun n => q n * c (S M - n)%nat) (S (S M)))
       / q 0%nat.
Proof.
  intros Hq Hprod.
  change (quotient_coeffs p q (S (S M)))
    with (((p (S M) - conv q 1 (quotient_coeffs p q (S M))) / q 0%nat)
          :: quotient_coeffs p q (S M)).
  cbn [hd]. rewrite conv_qsum, quotient_coeffs_length.
  rewrite (qsum_ext _ (fun i => q (S i) * c (M - i)%nat)).
  2:{ intros i Hi. cbn [Nat.add].
      rewrite (quotient_coeffs_agree p q c M Hq Hprod M i) by lia.
      reflexivity. }
  rewrite (qsum_first (fun n => q n * c (S M - n)%nat)).
  cbn [Nat.sub]. field. exact Hq.
Qed.

(** The product of the denominator with the series of [exp], one order
    past [k + j]. *)
Lemma pade_product_next (k j : nat) :
  qsum (fun n =>
          getitem (mk_poly1d (descending (qcoef (Z.of_nat k) (Z.of_nat j)) j)
                     (Z.of_nat j)) (Z.of_nat n)
          * exp_coeff (S (k + j) - n)) (S (S (k + j)))
  == inject_Z (sgn j) * factorial j * factorial k
     / (factorial (k + j) * factorial (S (k + j))).
Proof.
  rewrite (qsum_cut _ (S j)).
  2:{ lia. }
  2:{ intros i Hi. rewrite getitem_above by (cbn [order]; lia). ring. }
  rewrite (qsum_ext _
    (fun n => (1 / factorial (k + j))
              * (inject_Z (sgn n * binom j n)
                 / inject_Z (Z.of_nat (S (k + j) - n))))).
  - rewrite qsum_scale, alternating_reciprocal_sum by lia.
    replace (S (k + j) - j - 1)%nat with k by lia.
    field. split; apply factorial_nonzero.
  - intros n Hn. rewrite Q_getitem_closed by lia. unfold exp_coeff.
    replace (S (k + j) - n)%nat with (S (k + j - n)) by lia.
    rewrite factorial_S. unfold float_of_int.
    field. repeat split;
      first [apply factorial_nonzero|apply inject_nat_nonzero; lia].
Qed.

(** Over the rationals, without rounding, the agreement with [exp] is sharp:
    for non-negative [k] and [j] the Taylor
    coefficient of [P/Q] of degree [k + j + 1] is
    [1/(k+j+1)! - (-1)^j j! k! / ((k+j)! (k+j+1)!)], which is not the
    coefficient of [exp]. *)
Theorem pade_exp_order_exact (k j : nat) :
  exists P Qd : poly1d,
    pade_exp (Z.of_nat k) (Z.of_nat j) = Some (P, Qd) /\
    taylor_coeff P Qd (S (k + j))
    == exp_coeff (S (k + j))
       - (-1) ^ Z.of_nat j * (factorial j * factorial k)
         / (factorial (k + j) * factorial (S (k + j))) /\
    ~ taylor_coeff P Qd (S (k + j)) == exp_coeff (S (k + j)).
Proof.
  do 2 eexists. split; [apply pade_exp_closed; lia|].
  rewrite !Nat2Z.id.
  set (P := mk_poly1d (descending (pcoef (Z.of_nat k) (Z.of_nat j)) k)
              (Z.of_nat k)).
  set (Qd := mk_poly1d (descending (qcoef (Z.of_nat k) (Z.of_nat j)) j)
               (Z.of_nat j)).
  assert (H0 : getitem Qd (Z.of_nat 0) == 1).
  { unfold Qd. rewrite getitem_descending by lia. reflexivity. }
  assert (Hq : ~ getitem Qd (Z.of_nat 0) == 0).
  { rewrite H0. discriminate. }
  assert (Hval :
    taylor_coeff P Qd (S (k + j))
    == exp_coeff (S (k + j))
       - (-1) ^ Z.of_nat j * (factorial j * factorial k)
         / (factorial (k + j) * factorial (S (k + j)))).
  { unfold taylor_coeff.
    rewrite (quotient_coeffs_next
               (fun i => getitem P (Z.of_nat i))
               (fun i => getitem Qd (Z.of_nat i)) exp_coeff (k + j) Hq
               (fun m Hm => pade_product k j m Hm)).
    cbv beta. rewrite H0, minus_one_pow_sgn. unfold Qd.
    rewrite pade_product_next.
    unfold P. rewrite getitem_above by (cbn [order]; lia).
    field. split; apply factorial_nonzero. }
  split; [exact Hval|].
  intros E. rewrite Hval in E.
  assert (Hs := minus_one_pow_square j).
  assert (Hj := factorial_pos j). assert (Hk := factorial_pos k).
  assert (H1 := factorial_pos (k + j)).
  assert (H2 := factorial_pos (S (k + j))).
  assert (Hz : (-1) ^ Z.of_nat j * (factorial j * factorial k)
               / (factorial (k + j) * factorial (S (k + j))) == 0).
  { setoid_replace ((-1) ^ Z.of_nat j * (factorial j * factorial k)
                    / (factorial (k + j) * factorial (S (k + j))))
      with (exp_coeff (S (k + j))
            - (exp_coeff (S (k + j))
               - (-1) ^ Z.of_nat j * (factorial j * factorial k)
                 / (factorial (k + j) * factorial (S (k + j))))) by ring.
    rewrite E. ring. }
  assert (Hpos : 0 < (factorial j * factorial k)
                     / (factorial (k + j) * factorial (S (k + j)))).
  { apply Qdiv_pos; now apply Qmult_lt_0_compat. }
  assert (Hzero : (factorial j * factorial k)
                  / (factorial (k + j) * factorial (S (k + j))) == 0).
  { setoid_replace ((factorial j * factorial k)
                    / (factorial (k + j) * factorial (S (k + j))))
      with ((-1) ^ Z.of_nat j
            * ((-1) ^ Z.of_nat j * (factorial j * factorial k)
               / (factorial (k + j) * factorial (S (k + j))))).
    - rewrite Hz. ring.
    - unfold Qdiv. rewrite !Qmult_assoc, Hs. ring. }
  rewrite Hzero in Hpos. discriminate.
Qed.

(** ** The origin *)

Lemma polyvalC_descending_0 (f : nat -> Q) (n : nat) (o : Z) :
  Ceq (polyvalC (mk_poly1d (descending f n) o) (0, 0)) (f 0%nat, 0).
Proof.
  unfold polyvalC, descending. cbn [coeffs].
  change (seq 0 (S n)) with (0%nat :: seq 1 n).
  cbn [rev]. rewrite map_app, fold_left_app. cbn [map fold_left].
  unfold Ceq, Cadd, Cmul. cbn [fst snd]. split; ring.
Qed.

Lemma stable_at_origin (f g : nat -> Q) (n m : nat) (o o' : Z) :
  f 0%nat == 1 -> g 0%nat == 1 ->
  stable (mk_poly1d (descending f n) o) (mk_poly1d (descending g m) o') (0, 0)
  = true.
Proof.
  intros Hf Hg. apply stable_norms.
  assert (Hp := polyvalC_descending_0 f n o).
  assert (Hq := polyvalC_descending_0 g m o').
  split.
  - rewrite (Cis_zero_Ceq _ _ Hq). unfold Cis_zero. cbn [fst snd].
    destruct (Qeq_bool (g 0%nat) 0) eqn:E; [|reflexivity].
    apply Qeq_bool_eq in E. rewrite Hg in E. discriminate.
  - rewrite (Cnorm2_Ceq _ _ Hp), (Cnorm2_Ceq _ _ Hq).
    unfold Cnorm2. cbn [fst snd]. rewrite Hf, Hg. apply Qle_refl.
Qed.

(** X18: The origin is in the stability region of every approximant built here:
    of [pade_exp(k, j)] for non-negative [k] and [j], and of [taylor(p)]
    over the denominator 1 for non-negative [p]. *)
Theorem origin_is_stable (k j p : Z) :
  (0 <= k)%Z -> (0 <= j)%Z -> (0 <= p)%Z ->
  (exists P Qd : poly1d,
     pade_exp k j = Some (P, Qd) /\ stable P Qd (0, 0) = true) /\
  stable (taylor p) one (0, 0) = true.
Proof.
  intros Hk Hj Hp. split.
  - do 2 eexists. split; [apply pade_exp_closed; assumption|].
    apply stable_at_origin; reflexivity.
  - rewrite taylor_closed by assumption.
    change one with (mk_poly1d (descending (fun _ => 1) 0) 0).
    apply stable_at_origin; reflexivity.
Qed.

Lemma origin_is_stable_witness :
  (exists P Qd : poly1d,
     pade_exp 2 3 = Some (P, Qd) /\ stable P Qd (0, 0) = true) /\
  stable (taylor 4) one (0, 0) = true.
Proof.
  apply (origin_is_stable 2 3 4); lia.
Defined.

(** ** [taylor] in the renderer *)

(** X19: Over the denominator 1, [taylor(p)] with [p >= 0] always goes through
    the bound search, never the unbounded branch; the notice that the region
    may be unbounded is printed only for [p = 0], the constant 1. *)
Theorem taylor_in_renderer
    (find_plot_bounds : (C -> bool) -> bounds -> bounds)
    (p : Z) (N : nat) (color : string) (filled plotroots : bool)
    (alpha scalefac : Q) (fignum : option Z) :
  (0 <= p)%Z ->
  unbounded_test (taylor p) one = false /\
  In (FindPlotBounds initial_guess)
     (plot_stability_region find_plot_bounds (taylor p) one N color filled
        plotroots alpha scalefac fignum) /\
  (In (Print msg_may_be_unbounded)
      (plot_stability_region find_plot_bounds (taylor p) one N color filled
         plotroots alpha scalefac fignum)
   <-> p = 0%Z).
Proof.
  intros Hp.
  assert (Hu : unbounded_test (taylor p) one = false).
  { rewrite taylor_closed by assumption.
    change one with (mk_poly1d [1] 0). unfold unbounded_test. cbn [order].
    destruct (Z.ltb_spec p 0) as [L|L]; [lia|]. cbn [orb].
    destruct (Z.eqb_spec p 0) as [E|E]; [|reflexivity]. subst p.
    reflexivity. }
  split; [exact Hu|]. split.
  - destruct (plot_trace_split find_plot_bounds (taylor p) one N color filled
                plotroots alpha scalefac fignum) as [drawing [-> _]].
    rewrite (select_bounds_bounded find_plot_bounds _ _ Hu). cbn [snd].
    apply in_or_app. left. now left.
  - rewrite (proj1 (softer_notice find_plot_bounds _ _ N color filled
                      plotroots alpha scalefac fignum)).
    rewrite taylor_closed by assumption. cbn [order].
    change (order one) with 0%Z. split; [tauto|].
    intros ->. split; reflexivity.
Qed.

Lemma taylor_in_renderer_witness :
  unbounded_test (taylor 4) one = false /\
  In (FindPlotBounds initial_guess)
     (plot_stability_region search_returning_disk (taylor 4) one 2 "r" true
        false 1 1 None) /\
  (In (Print msg_may_be_unbounded)
      (plot_stability_region search_returning_disk (taylor 4) one 2 "r" true
         false 1 1 None)
   <-> 4%Z = 0%Z).
Proof.
  apply (taylor_in_renderer search_returning_disk 4); lia.
Defined.

(** * The program in binary64 *)

(** ** [pade_exp]: values, degrees and signs while nothing underflows *)

Lemma triangle_spec (B : Z) (f : Z -> Z -> bool) :
  B64.triangle B f = true ->
  forall k j : Z, (0 <= k)%Z -> (0 <= j)%Z -> (k + j <= B)%Z -> f k j = true.
Proof.
  unfold B64.triangle. intros H k j Hk Hj HB.
  rewrite forallb_forall in H.
  assert (Hin : In k (range 0 (B + 1))) by (apply in_range; lia).
  specialize (H k Hin). rewrite forallb_forall in H.
  apply H. apply in_range. lia.
Qed.

(** All pairs of degrees with [k + j <= 170], by computation. *)
Lemma pade_triangle : B64.triangle 170 B64.pade_facts = true.
Proof. vm_compute. reflexivity. Qed.

Lemma pade_facts_170 (k j : Z) :
  (0 <= k)%Z -> (0 <= j)%Z -> (k + j <= 170)%Z ->
  exists P Qd : B64.poly1d,
    B64.pade_exp k j = Some (P, Qd) /\
    PrimFloat.eqb (B64.polyval P 0) 1 = true /\
    PrimFloat.eqb (B64.polyval Qd 0) 1 = true /\
    B64.order P = k /\ B64.order Qd = j /\
    forallb (fun c => PrimFloat.ltb 0 c) (B64.coeffs P) = true /\
    B64.alternating true (rev (B64.coeffs Qd)) = true /\
    B64.unbounded_test P Qd = (k <? j)%Z /\
    B64.equal_magnitude_test P Qd = (k =? j)%Z /\
    B64.leading_lt P Qd = (k <? j)%Z /\
    B64.leading_eq P Qd = (k =? j)%Z.
Proof.
  intros Hk Hj HB.
  assert (H := triangle_spec 170 B64.pade_facts pade_triangle k j Hk Hj HB).
  unfold B64.pade_facts in H.
  destruct (B64.pade_exp k j) as [[P Qd]|]; [|discriminate].
  exists P, Qd. split; [reflexivity|].
  repeat (apply andb_true_iff in H; destruct H as [H ?]).
  repeat split; try assumption.
  - now apply Z.eqb_eq.
  - now apply Z.eqb_eq.
  - now apply Bool.eqb_prop.
  - now apply Bool.eqb_prop.
  - now apply Bool.eqb_prop.
  - now apply Bool.eqb_prop.
Qed.




(** X4: for non-negative [k] and [j] with [k + j <= 170], every coefficient
    of the numerator returned by [pade_exp] is positive, and the
    coefficients of the denominator, from degree 0 upwards, have the signs
    [+, -, +, ...]. *)
Theorem pade_exp_signs_binary64 (k j : Z) :
  (0 <= k)%Z -> (0 <= j)%Z -> (k + j <= 170)%Z ->
  exists P Qd : B64.poly1d,
    B64.pade_exp k j = Some (P, Qd) /\
    (forall c : float, In c (B64.coeffs P) -> PrimFloat.ltb 0 c = true) /\
    B64.alternating true (rev (B64.coeffs Qd)) = true.
Proof.
  intros Hk Hj HB.
  destruct (pade_facts_170 k j Hk Hj HB)
    as (P & Qd & E & _ & _ & _ & _ & Hpos & Halt & _).
  exists P, Qd. split; [exact E|]. split; [|exact Halt].
  now apply forallb_forall.
Qed.

Lemma pade_exp_signs_binary64_witness :
  exists P Qd : B64.poly1d,
    B64.pade_exp 3 4 = Some (P, Qd) /\
    (forall c : float, In c (B64.coeffs P) -> PrimFloat.ltb 0 c = true) /\
    B64.alternating true (rev (B64.coeffs Qd)) = true.
Proof.
  apply (pade_exp_signs_binary64 3 4); lia.
Defined.

Lemma value_zero : B64.value 0%float = 0.
Proof. reflexivity. Qed.

Lemma getitem_exact_poly (p : B64.poly1d) (i : Z) :
  getitem (B64.exact_poly p) i = B64.value (B64.getitem p i).
Proof.
  unfold getitem, B64.getitem, B64.exact_poly. cbn [coeffs order].
  destruct (i >? B64.order p)%Z; [reflexivity|].
  destruct (i <? 0)%Z; [reflexivity|].
  exact (map_nth B64.value (B64.coeffs p) 0%float _).
Qed.

Lemma unbounded_test_exact_poly (p q : B64.poly1d) :
  unbounded_test (B64.exact_poly p) (B64.exact_poly q) = B64.leading_lt p q.
Proof.
  unfold unbounded_test, B64.leading_lt.
  rewrite !getitem_exact_poly.
  change (order (B64.exact_poly p)) with (B64.order p).
  change (order (B64.exact_poly q)) with (B64.order q).
  destruct (B64.order p <? B64.order q)%Z, (B64.order p =? B64.order q)%Z;
    reflexivity.
Qed.

Lemma equal_leading_exact_poly (p q : B64.poly1d) :
  (order (B64.exact_poly p) =? order (B64.exact_poly q))%Z
  && Qeq_bool (Qabs (getitem (B64.exact_poly p) (order (B64.exact_poly p))))
       (Qabs (getitem (B64.exact_poly q) (order (B64.exact_poly q))))
  = B64.leading_eq p q.
Proof.
  unfold B64.leading_eq. rewrite !getitem_exact_poly.
  change (order (B64.exact_poly p)) with (B64.order p).
  change (order (B64.exact_poly q)) with (B64.order q).
  destruct (B64.order p =? B64.order q)%Z; reflexivity.
Qed.

(** X9: for non-negative [k] and [j] with [k + j <= 170], handed the pair
    returned by [pade_exp(k, j)], the renderer prints that the region is
    unbounded exactly when [k < j], and that it may be unbounded exactly
    when [k = j]: the test of the unbounded branch is true exactly when
    [k < j], and the test on equal leading magnitudes exactly when
    [k = j]. *)
Theorem pade_exp_in_renderer_binary64
    (find_plot_bounds : (C -> bool) -> bounds -> bounds)
    (k j : Z) (N : nat) (color : string) (filled plotroots : bool)
    (alpha scalefac : Q) (fignum : option Z) :
  (0 <= k)%Z -> (0 <= j)%Z -> (k + j <= 170)%Z ->
  exists P Qd : B64.poly1d,
    B64.pade_exp k j = Some (P, Qd) /\
    (B64.unbounded_test P Qd = true <-> (k < j)%Z) /\
    (B64.equal_magnitude_test P Qd = true <-> k = j) /\
    (In (Print msg_unbounded)
        (plot_stability_region find_plot_bounds
           (B64.exact_poly P) (B64.exact_poly Qd) N color filled plotroots
           alpha scalefac fignum)
     <-> (k < j)%Z) /\
    (In (Print msg_may_be_unbounded)
        (plot_stability_region find_plot_bounds
           (B64.exact_poly P) (B64.exact_poly Qd) N color filled plotroots
           alpha scalefac fignum)
     <-> k = j).
Proof.
  intros Hk Hj HB.
  destruct (pade_facts_170 k j Hk Hj HB)
    as (P & Qd & E & _ & _ & _ & _ & _ & _ & Hu & He & Hlt & Heq).
  exists P, Qd. split; [exact E|].
  split; [rewrite Hu; apply Z.ltb_lt|].
  split; [rewrite He; apply Z.eqb_eq|].
  split.
  - rewrite (proj1 (branch_notices find_plot_bounds _ _ N color filled
                      plotroots alpha scalefac fignum)).
    rewrite <- unbounded_test_iff, unbounded_test_exact_poly, Hlt.
    apply Z.ltb_lt.
  - rewrite (proj1 (softer_notice find_plot_bounds _ _ N color filled
                      plotroots alpha scalefac fignum)).
    rewrite <- equal_leading_iff, equal_leading_exact_poly, Heq.
    apply Z.eqb_eq.
Qed.

Lemma pade_exp_in_renderer_binary64_witness :
  exists P Qd : B64.poly1d,
    B64.pade_exp 2 2 = Some (P, Qd) /\
    (B64.unbounded_test P Qd = true <-> (2 < 2)%Z) /\
    (B64.equal_magnitude_test P Qd = true <-> 2%Z = 2%Z) /\
    (In (Print msg_unbounded)
        (plot_stability_region search_returning_disk
           (B64.exact_poly P) (B64.exact_poly Qd) 2 "r" true false 1 1 None)
     <-> (2 < 2)%Z) /\
    (In (Print msg_may_be_unbounded)
        (plot_stability_region search_returning_disk
           (B64.exact_poly P) (B64.exact_poly Qd) 2 "r" true false 1 1 None)
     <-> 2%Z = 2%Z).
Proof.
  apply (pade_exp_in_renderer_binary64 search_returning_disk 2 2); lia.
Defined.

(** ** [pade_exp]: the Taylor expansion of the returned quotient *)



Lemma zfact_fact (n : nat) : Z.of_nat (fact n) = zfact n.
Proof.
  induction n as [|n IH]; [reflexivity|].
  change (fact (S n)) with (S n * fact n)%nat.
  rewrite Nat2Z.inj_mul, IH. reflexivity.
Qed.








(** ** [taylor] in binary64 *)

Lemma finite_nonzero_finite (c : float) :
  B64.finite_nonzero c = true -> B64.finite c = true.
Proof.
  unfold B64.finite_nonzero, B64.finite. now destruct (Prim2SF c).
Qed.

Lemma finite_nonzero_not_zero (c : float) :
  B64.finite_nonzero c = true -> PrimFloat.eqb c 0 = false.
Proof.
  unfold B64.finite_nonzero. intros H. rewrite FloatAxioms.eqb_spec.
  change (Prim2SF 0) with (S754_zero false).
  destruct (Prim2SF c) as [s| | |s m e]; try discriminate.
  now destruct s.
Qed.

(** One pass of Horner's scheme at 0: a finite accumulator times [0.0] is a
    zero, and a zero added to a finite nonzero coefficient is that
    coefficient. *)
Lemma horner_step_at_0 (y c : float) :
  B64.finite y = true -> B64.finite_nonzero c = true ->
  PrimFloat.add (PrimFloat.mul y 0) c = c.
Proof.
  unfold B64.finite, B64.finite_nonzero. intros Hy Hc.
  apply FloatAxioms.Prim2SF_inj.
  rewrite FloatAxioms.add_spec, FloatAxioms.mul_spec.
  change (Prim2SF 0) with (S754_zero false).
  destruct (Prim2SF y) as [sy| | |sy my ey]; try discriminate;
    destruct (Prim2SF c) as [sc| | |sc mc ec]; try discriminate;
    reflexivity.
Qed.

Lemma horner_at_0_binary64 (l : list float) (y : float) :
  B64.finite y = true ->
  (forall c : float, In c l -> B64.finite_nonzero c = true) ->
  l <> [] ->
  fold_left (fun a pv => PrimFloat.add (PrimFloat.mul a 0) pv) l y
  = last l 0%float.
Proof.
  revert y. induction l as [|c t IH]; intros y Hy Hl Hne; [congruence|].
  cbn [fold_left].
  rewrite horner_step_at_0 by (try assumption; apply Hl; now left).
  destruct t as [|c' t']; [reflexivity|].
  change (last (c :: c' :: t') 0%float) with (last (c' :: t') 0%float).
  apply IH.
  - apply finite_nonzero_finite, Hl. now left.
  - intros x Hx. apply Hl. now right.
  - discriminate.
Qed.

Lemma rev_seq_S (n : nat) : rev (seq 0 (S n)) = n :: rev (seq 0 n).
Proof.
  rewrite seq_S, rev_app_distr. reflexivity.
Qed.

Lemma rev_seq_nth (n i : nat) :
  (i <= n)%nat -> nth i (rev (seq 0 (S n))) 0%nat = (n - i)%nat.
Proof.
  revert i. induction n as [|n IH]; intros i Hi.
  - now replace i with 0%nat by lia.
  - rewrite rev_seq_S. destruct i as [|i]; [reflexivity|].
    cbn [nth Nat.sub]. apply IH. lia.
Qed.

Lemma rev_seq_last (n : nat) :
  rev (seq 0 (S n)) = (rev (seq 1 n) ++ [0%nat])%list.
Proof.
  change (seq 0 (S n)) with (0%nat :: seq 1 n). reflexivity.
Qed.

Lemma make_nonzero_head_binary64 (c : float) (t : list float) :
  PrimFloat.eqb c 0 = false ->
  B64.make (c :: t) = B64.mk_poly1d (c :: t) (Z.of_nat (List.length t)).
Proof.
  intros H. unfold B64.make. cbn [B64.trim_zeros_f]. rewrite H.
  cbn [List.length]. f_equal. lia.
Qed.

Lemma taylor_binary64_closed (factorial : nat -> float) (n : nat) :
  B64.finite_nonzero (PrimFloat.div 1 (factorial n)) = true ->
  B64.taylor factorial (Z.of_nat n)
  = B64.mk_poly1d
      (map (fun i => PrimFloat.div 1 (factorial i)) (rev (seq 0 (S n))))
      (Z.of_nat n).
Proof.
  intros H. unfold B64.taylor.
  replace (Z.to_nat (Z.of_nat n + 1)) with (S n) by lia.
  rewrite <- map_rev, rev_seq_S. cbn [map].
  rewrite make_nonzero_head_binary64 by now apply finite_nonzero_not_zero.
  now rewrite length_map, length_rev, length_seq.
Qed.

Lemma reciprocals_rounded : forallb reciprocal_rounded (seq 0 23) = true.
Proof. vm_compute. reflexivity. Qed.

(** C7, as amended: for every [p >= 0] such that each quotient
    [1./factorial(i)], [i <= p], is a finite nonzero binary64 number (with
    [factorial(0) = 1]), [taylor(p)] is a polynomial of degree [p] whose
    coefficients, stored highest degree first, are the quotients
    [1./factorial(i)] at degree [i], and whose value at 0 is 1; [taylor(0)]
    is the constant polynomial 1.  The quotient is [1/i!] rounded to
    nearest, within [2^-53] of it in relative terms, wherever [factorial(i)]
    is [i!] exactly, which holds up to [i = 22]. *)
Theorem taylor_binary64 (factorial : nat -> float) (p : Z) :
  (0 <= p)%Z ->
  factorial 0%nat = 1%float ->
  (forall i : nat, (i <= Z.to_nat p)%nat ->
     B64.finite_nonzero (PrimFloat.div 1 (factorial i)) = true) ->
  B64.order (B64.taylor factorial p) = p /\
  B64.coeffs (B64.taylor factorial p)
  = map (fun i => PrimFloat.div 1 (factorial i))
        (rev (seq 0 (S (Z.to_nat p)))) /\
  (forall i : nat, (i <= Z.to_nat p)%nat ->
     B64.getitem (B64.taylor factorial p) (Z.of_nat i)
     = PrimFloat.div 1 (factorial i)) /\
  PrimFloat.eqb (B64.polyval (B64.taylor factorial p) 0) 1 = true /\
  B64.taylor factorial 0 = B64.mk_poly1d [1%float] 0 /\
  (B64.exact_up_to_22 factorial ->
   forall i : nat, (i <= 22)%nat ->
     exists c : Q,
       B64.to_Q (PrimFloat.div 1 (factorial i)) = Some c /\
       Qabs (c - 1 / Num.factorial i)
       <= (1 / Num.factorial i) * (1 # (2 ^ 53))).
Proof.
  intros Hp H0 Hnz.
  set (f := fun i : nat => PrimFloat.div 1 (factorial i)).
  assert (Hf0 : f 0%nat = 1%float) by (unfold f; rewrite H0; reflexivity).
  assert (Ep : p = Z.of_nat (Z.to_nat p)) by lia.
  remember (Z.to_nat p) as n eqn:En. rewrite Ep. clear Ep En Hp p.
  rewrite taylor_binary64_closed by (apply Hnz; lia).
  cbn [B64.order B64.coeffs]. fold f.
  split; [reflexivity|]. split; [reflexivity|]. split.
  { intros i Hi. unfold B64.getitem. cbn [B64.order B64.coeffs].
    destruct (Z.gtb_spec (Z.of_nat i) (Z.of_nat n)); [lia|].
    destruct (Z.ltb_spec (Z.of_nat i) 0); [lia|].
    replace (Z.to_nat (Z.of_nat n - Z.of_nat i)) with (n - i)%nat by lia.
    rewrite (nth_indep _ 0%float (f 0%nat))
      by (rewrite length_map, length_rev, length_seq; lia).
    rewrite map_nth, rev_seq_nth by lia.
    replace (n - (n - i))%nat with i by lia. reflexivity. }
  split.
  { unfold B64.polyval. cbn [B64.coeffs].
    rewrite horner_at_0_binary64.
    - rewrite rev_seq_last, map_app. cbn [map]. rewrite last_last, Hf0.
      reflexivity.
    - reflexivity.
    - intros c Hc. apply in_map_iff in Hc. destruct Hc as [i [<- Hi]].
      apply Hnz. apply in_rev, in_seq in Hi. lia.
    - rewrite rev_seq_S. discriminate. }
  split.
  { unfold B64.taylor. change (Z.to_nat (0 + 1)) with 1%nat.
    cbn [seq map rev app]. rewrite H0. reflexivity. }
  intros Hex i Hi. unfold f. rewrite (Hex i Hi).
  assert (Hr := reciprocals_rounded). rewrite forallb_forall in Hr.
  specialize (Hr i ltac:(apply in_seq; lia)). unfold reciprocal_rounded in Hr.
  destruct (B64.to_Q (PrimFloat.div 1 (B64.product_factorial i))) as [c|];
    [|discriminate].
  exists c. split; [reflexivity|].
  apply Qle_bool_iff in Hr. unfold Num.factorial. rewrite zfact_fact.
  exact Hr.
Qed.

Lemma reciprocals_nonzero_22 (i : nat) :
  (i <= 22)%nat ->
  B64.finite_nonzero (PrimFloat.div 1 (B64.product_factorial i)) = true.
Proof.
  intros Hi.
  assert (H : forallb
                (fun i => B64.finite_nonzero
                            (PrimFloat.div 1 (B64.product_factorial i)))
                (seq 0 23) = true) by (vm_compute; reflexivity).
  rewrite forallb_forall in H. apply H. apply in_seq. lia.
Qed.

Lemma taylor_binary64_witness :
  B64.order (B64.taylor B64.product_factorial 22) = 22%Z /\
  B64.coeffs (B64.taylor B64.product_factorial 22)
  = map (fun i => PrimFloat.div 1 (B64.product_factorial i))
        (rev (seq 0 (S (Z.to_nat 22)))) /\
  (forall i : nat, (i <= Z.to_nat 22)%nat ->
     B64.getitem (B64.taylor B64.product_factorial 22) (Z.of_nat i)
     = PrimFloat.div 1 (B64.product_factorial i)) /\
  PrimFloat.eqb (B64.polyval (B64.taylor B64.product_factorial 22) 0) 1
  = true /\
  B64.taylor B64.product_factorial 0 = B64.mk_poly1d [1%float] 0 /\
  (B64.exact_up_to_22 B64.product_factorial ->
   forall i : nat, (i <= 22)%nat ->
     exists c : Q,
       B64.to_Q (PrimFloat.div 1 (B64.product_factorial i)) = Some c /\
       Qabs (c - 1 / Num.factorial i)
       <= (1 / Num.factorial i) * (1 # (2 ^ 53))).
Proof.
  apply (taylor_binary64 B64.product_factorial 22).
  - lia.
  - reflexivity.
  - intros i Hi. apply reciprocals_nonzero_22.
    change (Z.to_nat 22) with 22%nat in Hi. exact Hi.
Defined.

(** C7, as stated, fails: the degree-3 coefficient of [taylor(3)] is the
    binary64 number nearest to [1/6], which is not [1/6]; and a factorial
    that overflows at [171!], as the float gamma function does, gives
    [taylor(171)] the degree 170. *)
Lemma taylor_coefficient_rounded :
  ~ B64.value (B64.getitem (B64.taylor B64.product_factorial 3) 3)
    == 1 / Num.factorial 3 /\
  B64.product_factorial 171 = infinity /\
  B64.order (B64.taylor B64.product_factorial 171) = 170%Z.
Proof.
  split; [vm_compute; discriminate|].
  split; vm_compute; reflexivity.
Qed.

(** ** Zero-degree denominator in binary64 *)








(** ** Raising the order of [taylor] in binary64 *)

(** X11: for [p >= 0], when the quotients [1./factorial(p)] and
    [1./factorial(p+1)] are finite and nonzero, the coefficient list of
    [taylor(p+1)] is that of [taylor(p)] with the new leading coefficient
    [1./factorial(p+1)] in front; when [1./factorial(p+1)] is zero, as it is
    once the factorial has overflowed, [taylor(p+1)] is [taylor(p)]. *)
Theorem taylor_extends_binary64 (factorial : nat -> float) (p : Z) :
  (0 <= p)%Z ->
  (B64.finite_nonzero (PrimFloat.div 1 (factorial (Z.to_nat p))) = true ->
   B64.finite_nonzero (PrimFloat.div 1 (factorial (S (Z.to_nat p)))) = true ->
   B64.coeffs (B64.taylor factorial (p + 1))
   = PrimFloat.div 1 (factorial (S (Z.to_nat p)))
     :: B64.coeffs (B64.taylor factorial p)) /\
  (PrimFloat.eqb (PrimFloat.div 1 (factorial (S (Z.to_nat p)))) 0 = true ->
   B64.taylor factorial (p + 1) = B64.taylor factorial p).
Proof.
  intros Hp.
  assert (Ep : p = Z.of_nat (Z.to_nat p)) by lia.
  remember (Z.to_nat p) as n eqn:En. rewrite Ep. clear Ep En Hp p.
  replace (Z.of_nat n + 1)%Z with (Z.of_nat (S n)) by lia.
  split.
  - intros Hn HS. rewrite !taylor_binary64_closed by assumption.
    cbn [B64.coeffs]. now rewrite (rev_seq_S (S n)).
  - intros Hz. unfold B64.taylor.
    replace (Z.to_nat (Z.of_nat (S n) + 1)) with (S (S n)) by lia.
    replace (Z.to_nat (Z.of_nat n + 1)) with (S n) by lia.
    rewrite <- !map_rev, (rev_seq_S (S n)). cbn [map].
    unfold B64.make. cbn [B64.trim_zeros_f]. now rewrite Hz.
Qed.

Lemma taylor_extends_binary64_witness :
  (B64.finite_nonzero
     (PrimFloat.div 1 (B64.product_factorial (Z.to_nat 170))) = true ->
   B64.finite_nonzero
     (PrimFloat.div 1 (B64.product_factorial (S (Z.to_nat 170)))) = true ->
   B64.coeffs (B64.taylor B64.product_factorial (170 + 1))
   = PrimFloat.div 1 (B64.product_factorial (S (Z.to_nat 170)))
     :: B64.coeffs (B64.taylor B64.product_factorial 170)) /\
  (PrimFloat.eqb
     (PrimFloat.div 1 (B64.product_factorial (S (Z.to_nat 170)))) 0 = true ->
   B64.taylor B64.product_factorial (170 + 1)
   = B64.taylor B64.product_factorial 170).
Proof.
  apply (taylor_extends_binary64 B64.product_factorial 170). lia.
Defined.
